(** * Variable elimination and hybrid conditionals (GTSAM, as bundled with ROLO-SLAM)

    A shallow embedding of
    - [gtsam/hybrid/HybridConditional.cpp]: the type-erased wrapper around a
      Gaussian, a hybrid-Gaussian or a discrete conditional,
    - [gtsam/discrete/DiscreteFactorGraph.h]: the elimination traits of
      discrete factor graphs, and
    - [gtsam/basis/Chebyshev2.h]: the sampling of a function at the Chebyshev
      points,
    together with the symbolic (key-level) elimination machinery these files
    plug into.

    Layout: Part I holds the definitions, Part II the theorems. *)

From Stdlib Require Import Reals.
From stdpp Require Import base option list strings numbers sorting.

Set Default Proof Using "Type".

(* ===================================================================== *)
(** * Part I. Definitions                                                 *)
(* ===================================================================== *)

(** ** Keys *)

(** [gtsam::Key] is a 64-bit unsigned integer. *)
Definition Key : Type := N.

(** [gtsam::Symbol]: a character in the top byte, an index in the low 56 bits
    ([symbol_shorthand::X], [symbol_shorthand::L] of the notebooks). *)
Definition symbol (c : N) (j : N) : Key := N.lor (N.shiftl c 56) j.
Definition X (j : N) : Key := symbol 120 j.
Definition L (j : N) : Key := symbol 108 j.

(** [DiscreteKey]: a key with its cardinality. *)
Definition DiscreteKey : Type := (Key * nat)%type.

(** ** C++ exceptions as values *)

Inductive exception : Type :=
| runtime_error (what : string)   (* std::runtime_error *)
| foreign_error (what : string).  (* anything a wrapped conditional throws *)

(** The outcome of a call: it returns a value, unwinds with an exception,
    or does what the language leaves undefined (a null pointer or an empty
    optional dereferenced). *)
Inductive result (A : Type) : Type :=
| Return (a : A)
| Throw (e : exception)
| Undefined.
Arguments Return {A} a.
Arguments Throw {A} e.
Arguments Undefined {A}.

Definition result_map {A B} (f : A → B) (r : result A) : result B :=
  match r with
  | Return a => Return (f a)
  | Throw e => Throw e
  | Undefined => Undefined
  end.

Definition result_bind {A B} (r : result A) (f : A → result B) : result B :=
  match r with
  | Return a => f a
  | Throw e => Throw e
  | Undefined => Undefined
  end.

(** ** HybridConditional.cpp *)

(** What the translation unit takes from its headers: the numeric type, its
    [std::exp], the value containers, and the three conditional families with
    the methods called on them.  Every method may throw. *)
Class Collaborators : Type := {
  double : Type;
  std_exp : double → double;
  VectorValues : Type;
  DiscreteValues : Type;
  ErrorTree : Type;                      (* AlgebraicDecisionTree<Key> *)
  constantTree : double → ErrorTree;     (* the one-leaf tree [{x}] *)
  GaussianConditional : Type;
  HybridGaussianConditional : Type;
  DiscreteConditional : Type;
  OtherFactor : Type;                    (* any other class behind a [shared_ptr<Factor>] *)
  HybridValues : Type;
  continuous : HybridValues → VectorValues;
  discrete : HybridValues → DiscreteValues;
  gc_error : GaussianConditional → VectorValues → result double;
  gc_logProbability : GaussianConditional → VectorValues → result double;
  gc_negLogConstant : GaussianConditional → result double;
  gc_equals : GaussianConditional → GaussianConditional → double → bool;
  gc_keys : GaussianConditional → list Key;
  gc_nrFrontals : GaussianConditional → nat;
  gm_error : HybridGaussianConditional → HybridValues → result double;
  gm_errorTree : HybridGaussianConditional → VectorValues → result ErrorTree;
  gm_logProbability : HybridGaussianConditional → HybridValues → result double;
  gm_negLogConstant : HybridGaussianConditional → result double;
  gm_equals : HybridGaussianConditional → HybridGaussianConditional → double → bool;
  gm_continuousKeys : HybridGaussianConditional → list Key;
  gm_discreteKeys : HybridGaussianConditional → list DiscreteKey;
  gm_nrFrontals : HybridGaussianConditional → nat;
  (* [choose]: the conditional of one mode, null where [None] *)
  gm_choose : HybridGaussianConditional → DiscreteValues → option GaussianConditional;
  (* a new conditional on the remaining discrete keys, from [factors()] with
     [choose(key, value)] applied for each given value *)
  gm_restrictTo : HybridGaussianConditional → list DiscreteKey → DiscreteValues →
                  HybridGaussianConditional;
  dc_error : DiscreteConditional → DiscreteValues → result double;
  dc_errorTree : DiscreteConditional → result ErrorTree;
  dc_logProbability : DiscreteConditional → DiscreteValues → result double;
  dc_negLogConstant : DiscreteConditional → result double;
  dc_equals : DiscreteConditional → DiscreteConditional → double → bool;
  dc_discreteKeys : DiscreteConditional → list DiscreteKey;
  dc_nrFrontals : DiscreteConditional → nat;
  (* [Factor::equals] of another class, against an object of each class *)
  of_equals_gc : OtherFactor → GaussianConditional → double → bool;
  of_equals_gm : OtherFactor → HybridGaussianConditional → double → bool;
  of_equals_dc : OtherFactor → DiscreteConditional → double → bool;
  of_equals : OtherFactor → OtherFactor → double → bool;
  dv_filter : DiscreteValues → list DiscreteKey → DiscreteValues;
  dv_size : DiscreteValues → nat;
  dv_missingKeys : DiscreteValues → list DiscreteKey → list DiscreteKey;
}.

Section HybridConditional.
Context `{Collab : Collaborators}.

(** The object [inner_] points to, by dynamic type. *)
Inductive Inner : Type :=
| InnerGaussian (gc : GaussianConditional)
| InnerHybrid (gm : HybridGaussianConditional)
| InnerDiscrete (dc : DiscreteConditional)
| InnerOther (o : OtherFactor).

(** The data members the translation unit reads:
    [keys()] (continuous keys first, then the discrete ones),
    [discreteKeys_], [nrFrontals_] and [inner_] (null when [None]). *)
Record HybridConditional : Type := {
  keys : list Key;
  discreteKeys_ : list DiscreteKey;
  nrFrontals_ : nat;
  inner_ : option Inner;
}.

(** [std::dynamic_pointer_cast] of [inner_] to each family. *)
Definition asGaussian (hc : HybridConditional) : option GaussianConditional :=
  match inner_ hc with Some (InnerGaussian gc) => Some gc | _ => None end.
Definition asHybrid (hc : HybridConditional) : option HybridGaussianConditional :=
  match inner_ hc with Some (InnerHybrid gm) => Some gm | _ => None end.
Definition asDiscrete (hc : HybridConditional) : option DiscreteConditional :=
  match inner_ hc with Some (InnerDiscrete dc) => Some dc | _ => None end.

(** Constructors wrapping a concrete conditional (lines 37-59).  They
    delegate to the constructor from continuous keys, discrete keys and a
    number of frontals, which lays [keys()] out as the continuous keys
    followed by the keys of [discreteKeys_], the layout [print] reads. *)
Definition fromGaussian (gc : GaussianConditional) : HybridConditional :=
  {| keys := gc_keys gc; discreteKeys_ := [];
     nrFrontals_ := gc_nrFrontals gc; inner_ := Some (InnerGaussian gc) |}.
Definition fromDiscrete (dc : DiscreteConditional) : HybridConditional :=
  {| keys := (dc_discreteKeys dc).*1; discreteKeys_ := dc_discreteKeys dc;
     nrFrontals_ := dc_nrFrontals dc; inner_ := Some (InnerDiscrete dc) |}.
Definition fromHybrid (gm : HybridGaussianConditional) : HybridConditional :=
  {| keys := gm_continuousKeys gm ++ (gm_discreteKeys gm).*1;
     discreteKeys_ := gm_discreteKeys gm;
     nrFrontals_ := gm_nrFrontals gm; inner_ := Some (InnerHybrid gm) |}.

(** Constructor from keys alone (lines 28-34): [inner_] stays null. *)
Definition fromKeys (continuousFrontals : list Key) (discreteFrontals : list DiscreteKey)
    (continuousParents : list Key) (discreteParents : list DiscreteKey)
    : HybridConditional :=
  {| keys := (continuousFrontals ++ continuousParents)
               ++ (discreteFrontals ++ discreteParents).*1;
     discreteKeys_ := discreteFrontals ++ discreteParents;
     nrFrontals_ := length continuousFrontals + length discreteFrontals;
     inner_ := None |}.

(** [HybridConditional::error] (lines 115-125). *)
Definition HybridConditional_error (hc : HybridConditional) (hybridValues : HybridValues)
    : result double :=
  match asGaussian hc with
  | Some gc => gc_error gc (continuous hybridValues)
  | None =>
    match asHybrid hc with
    | Some gm => gm_error gm hybridValues
    | None =>
      match asDiscrete hc with
      | Some dc => dc_error dc (discrete hybridValues)
      | None => Throw (runtime_error "HybridConditional::error: conditional type not handled"%string)
      end
    end
  end.

(** [HybridConditional::errorTree] (lines 128-139); the message of the last
    branch is the one of [error], as in the source. *)
Definition HybridConditional_errorTree (hc : HybridConditional)
    (continuousValues : VectorValues) : result ErrorTree :=
  match asGaussian hc with
  | Some gc => result_map constantTree (gc_error gc continuousValues)
  | None =>
    match asHybrid hc with
    | Some gm => gm_errorTree gm continuousValues
    | None =>
      match asDiscrete hc with
      | Some dc => dc_errorTree dc
      | None => Throw (runtime_error "HybridConditional::error: conditional type not handled"%string)
      end
    end
  end.

(** [HybridConditional::logProbability] (lines 142-152). *)
Definition HybridConditional_logProbability (hc : HybridConditional) (values : HybridValues)
    : result double :=
  match asGaussian hc with
  | Some gc => gc_logProbability gc (continuous values)
  | None =>
    match asHybrid hc with
    | Some gm => gm_logProbability gm values
    | None =>
      match asDiscrete hc with
      | Some dc => dc_logProbability dc (discrete values)
      | None =>
        Throw (runtime_error "HybridConditional::logProbability: conditional type not handled"%string)
      end
    end
  end.

(** [HybridConditional::negLogConstant] (lines 155-165). *)
Definition HybridConditional_negLogConstant (hc : HybridConditional) : result double :=
  match asGaussian hc with
  | Some gc => gc_negLogConstant gc
  | None =>
    match asHybrid hc with
    | Some gm => gm_negLogConstant gm
    | None =>
      match asDiscrete hc with
      | Some dc => dc_negLogConstant dc
      | None =>
        Throw (runtime_error "HybridConditional::negLogConstant: conditional type not handled"%string)
      end
    end
  end.

(** [HybridConditional::evaluate] (lines 168-170). *)
Definition HybridConditional_evaluate (hc : HybridConditional) (values : HybridValues)
    : result double :=
  result_map std_exp (HybridConditional_logProbability hc values).

(** [HybridConditional::equals] (lines 97-112).  [other] is the result of
    the [dynamic_cast] of the argument: [None] when it is no
    [HybridConditional]. *)
Definition HybridConditional_equals (hc : HybridConditional)
    (other : option HybridConditional) (tol : double) : bool :=
  match other with
  | None => false
  | Some e =>
    match asHybrid hc with
    | Some gm =>
        match asHybrid e with Some o => gm_equals gm o tol | None => false end
    | None =>
      match asGaussian hc with
      | Some gc =>
          match asGaussian e with Some o => gc_equals gc o tol | None => false end
      | None =>
        match asDiscrete hc with
        | Some dc =>
            match asDiscrete e with Some o => dc_equals dc o tol | None => false end
        | None =>
          match inner_ hc with
          | Some (InnerOther i) =>
              match inner_ e with
              | Some (InnerGaussian o) => of_equals_gc i o tol
              | Some (InnerHybrid o) => of_equals_gm i o tol
              | Some (InnerDiscrete o) => of_equals_dc i o tol
              | Some (InnerOther o) => of_equals i o tol
              | None => false
              end
          | Some _ => false (* not reached: the casts above succeed *)
          | None => negb (bool_decide (is_Some (inner_ e)))
          end
        end
      end
    end
  end.

(** [HybridConditional::restrict] (lines 173-205); the returned
    [shared_ptr<Factor>] always points to a [HybridConditional]. *)
Definition HybridConditional_restrict (hc : HybridConditional)
    (assignment : DiscreteValues) : result HybridConditional :=
  match asGaussian hc with
  | Some gc => Return (fromGaussian gc)
  | None =>
    match asDiscrete hc with
    | Some dc => Return (fromDiscrete dc)
    | None =>
      match asHybrid hc with
      | None =>
          Throw (runtime_error "HybridConditional::restrict: conditional type not handled"%string)
      | Some hgc =>
          (* Case 1: fully determined *)
          let parentValues := dv_filter assignment (discreteKeys_ hc) in
          if decide (dv_size parentValues = length (discreteKeys_ hc)) then
            match gm_choose hgc parentValues with
            | Some gc => Return (fromGaussian gc)
            | None => Undefined
            end
          else
            (* Case 2: some live parents remain *)
            let remainingKeys := dv_missingKeys assignment (discreteKeys_ hc) in
            if bool_decide (remainingKeys ≠ []) then
              Return (fromHybrid (gm_restrictTo hgc remainingKeys parentValues))
            else
              (* Case 3: no changes needed *)
              Return (fromHybrid hgc)
      end
    end
  end.

(** [HybridConditional::print] (lines 62-94), the key list written after
    ["P("] when there is no inner conditional.  Each insertion into
    [std::cout] is one token. *)
Inductive Token : Type :=
| tok_bar                              (* " | " *)
| tok_comma                            (* ", " *)
| tok_key (k : Key)                    (* formatter(keys()[index]) *)
| tok_discreteKey (dk : DiscreteKey).  (* "(" formatter(dk.first) ", " dk.second ")" *)

(** [N - discreteKeys_.size()] on [size_t]: it wraps around below zero. *)
Definition size_t_sub (a b : nat) : Z := ((Z.of_nat a - Z.of_nat b) mod 2 ^ 64)%Z.

(** The [while (index < N)] loop, at most [fuel] iterations from [index]. *)
Fixpoint print_loop (hc : HybridConditional) (N : nat) (contN : Z) (fuel index : nat)
    : list Token :=
  match fuel with
  | 0 => []
  | S fuel' =>
    if decide (index < N) then
      (if decide (0 < index)
       then [if decide (index = nrFrontals_ hc) then tok_bar else tok_comma]
       else [])
      ++ (if decide (Z.of_nat index < contN)%Z
          then option_list (tok_key <$> keys hc !! index)
          else option_list (tok_discreteKey
                              <$> discreteKeys_ hc !! Z.to_nat (Z.of_nat index - contN)))
      ++ print_loop hc N contN fuel' (S index)
    else []
  end.

(** The key list [print] writes.  With an inner conditional (line 66) the
    inner conditional's own [print] is called and the loop is not run. *)
Definition print_keys (hc : HybridConditional) : list Token :=
  match inner_ hc with
  | Some _ => []
  | None =>
    let N := length (keys hc) in
    print_loop hc N (size_t_sub N (length (discreteKeys_ hc))) N 0
  end.


(** The inner conditional is one of the three handled families. *)
Definition handled (hc : HybridConditional) : bool :=
  match inner_ hc with
  | Some (InnerGaussian _) | Some (InnerHybrid _) | Some (InnerDiscrete _) => true
  | Some (InnerOther _) | None => false
  end.

(** The family of the inner conditional, when it is a handled one. *)
Inductive Family : Type := GaussianFamily | HybridFamily | DiscreteFamily.

Definition family (hc : HybridConditional) : option Family :=
  match inner_ hc with
  | Some (InnerGaussian _) => Some GaussianFamily
  | Some (InnerHybrid _) => Some HybridFamily
  | Some (InnerDiscrete _) => Some DiscreteFamily
  | Some (InnerOther _) | None => None
  end.

(** The separator [print] writes before the key at [index]: none before the
    first key, the bar where [index == nrFrontals_], a comma elsewhere. *)
Definition separatorBefore (hc : HybridConditional) (index : nat) : list Token :=
  if decide (0 < index)
  then [if decide (index = nrFrontals_ hc) then tok_bar else tok_comma]
  else [].

(** The key a token shows, if it shows one. *)
Definition tokenKey (t : Token) : option Key :=
  match t with
  | tok_key k => Some k
  | tok_discreteKey dk => Some dk.1
  | tok_bar | tok_comma => None
  end.

End HybridConditional.

(** ** A concrete set of collaborators

    Scalar conditionals over the reals, after the examples of
    [gtsam/hybrid/doc/HybridConditional.ipynb]: a Gaussian [p(x | y)] with
    [R x + S y = d] and noise [sigma], a discrete table [P(d | e)] over two
    binary variables, and a two-mode mixture [p(x | m)].  They serve as the
    concrete inputs of the examples in Part II. *)

Definition vv_at (v : list (Key * R)) (k : Key) : result R :=
  match list_find (λ kv, kv.1 = k) v with
  | Some (_, (_, x)) => Return x
  | None => Throw (foreign_error "VectorValues::at: key not found"%string)
  end.

Definition dv_at (v : list (Key * nat)) (k : Key) : result nat :=
  match list_find (λ kv, kv.1 = k) v with
  | Some (_, (_, x)) => Return x
  | None => Throw (foreign_error "DiscreteValues::at: key not found"%string)
  end.

Record ScalarGaussian : Type := {
  sg_frontal : Key; sg_parent : option Key;
  sg_R : R; sg_S : R; sg_d : R; sg_sigma : R;
}.

Definition sg_error (g : ScalarGaussian) (v : list (Key * R)) : result R :=
  result_bind (vv_at v (sg_frontal g)) (λ x,
  result_bind (match sg_parent g with
               | Some p => vv_at v p
               | None => Return 0%R
               end) (λ y,
  Return (((sg_R g * x + sg_S g * y - sg_d g) / sg_sigma g) ^ 2 / 2)%R)).

Definition sg_negLogConstant (g : ScalarGaussian) : R :=
  (- ln (Rabs (sg_R g) / (sg_sigma g * sqrt (2 * PI))))%R.

Definition sg_logProbability (g : ScalarGaussian) (v : list (Key * R)) : result R :=
  result_map (λ e, (- e - sg_negLogConstant g)%R) (sg_error g v).

(** A table [P(frontal | parent)], one row of probabilities per parent value. *)
Record BinaryTable : Type := {
  bt_frontal : DiscreteKey; bt_parent : DiscreteKey;
  bt_rows : list (list R);
}.

Definition bt_error (t : BinaryTable) (v : list (Key * nat)) : result R :=
  result_bind (dv_at v (bt_frontal t).1) (λ i,
  result_bind (dv_at v (bt_parent t).1) (λ j,
  match bt_rows t !! j ≫= (.!! i) with
  | Some p => Return (- ln p)%R
  | None => Throw (foreign_error "DiscreteConditional: value out of range"%string)
  end)).

(** A mixture: one scalar Gaussian per value of the discrete mode. *)
Record Mixture : Type := {
  mx_mode : DiscreteKey;
  mx_components : list ScalarGaussian;
}.

Definition mx_pick (m : Mixture) (d : list (Key * nat)) : result ScalarGaussian :=
  result_bind (dv_at d (mx_mode m).1) (λ i,
  match mx_components m !! i with
  | Some g => Return g
  | None => Throw (foreign_error "HybridGaussianConditional: mode out of range"%string)
  end).

Definition mx_negLogConstant (m : Mixture) : result R :=
  match mx_components m with
  | [] => Throw (foreign_error "HybridGaussianConditional: no component"%string)
  | g :: gs => Return (foldr (λ h acc, Rmin (sg_negLogConstant h) acc)
                             (sg_negLogConstant g) gs)
  end.

(** An error tree, as the function from discrete assignments to its leaves
    (zero where the assignment does not reach a leaf). *)
Definition tree_of (f : list (Key * nat) → result R) (d : list (Key * nat)) : R :=
  match f d with Return e => e | _ => 0%R end.

(** Equality up to a tolerance. *)
Definition close (tol x y : R) : bool :=
  if Rle_dec (Rabs (x - y)) tol then true else false.

Definition all_close {A} (eqv : A → A → bool) (l1 l2 : list A) : bool :=
  bool_decide (length l1 = length l2) && forallb (λ p, eqv p.1 p.2) (zip l1 l2).

Definition sg_equals (a b : ScalarGaussian) (tol : R) : bool :=
  bool_decide (sg_frontal a = sg_frontal b) && bool_decide (sg_parent a = sg_parent b)
  && close tol (sg_R a) (sg_R b) && close tol (sg_S a) (sg_S b)
  && close tol (sg_d a) (sg_d b) && close tol (sg_sigma a) (sg_sigma b).

Definition bt_equals (a b : BinaryTable) (tol : R) : bool :=
  bool_decide (bt_frontal a = bt_frontal b) && bool_decide (bt_parent a = bt_parent b)
  && all_close (all_close (close tol)) (bt_rows a) (bt_rows b).

Definition mx_equals (a b : Mixture) (tol : R) : bool :=
  bool_decide (mx_mode a = mx_mode b)
  && all_close (λ g h, sg_equals g h tol) (mx_components a) (mx_components b).

#[global] Instance scalar_collaborators : Collaborators := {|
  double := R;
  std_exp := exp;
  VectorValues := list (Key * R);
  DiscreteValues := list (Key * nat);
  ErrorTree := list (Key * nat) → R;
  constantTree := λ x _, x;
  GaussianConditional := ScalarGaussian;
  HybridGaussianConditional := Mixture;
  DiscreteConditional := BinaryTable;
  OtherFactor := list Key;
  HybridValues := (list (Key * R) * list (Key * nat))%type;
  continuous := fst;
  discrete := snd;
  gc_error := sg_error;
  gc_logProbability := sg_logProbability;
  gc_negLogConstant := λ g, Return (sg_negLogConstant g);
  gc_equals := sg_equals;
  gc_keys := λ g, sg_frontal g :: option_list (sg_parent g);
  gc_nrFrontals := λ _, 1;
  gm_error := λ m v, result_bind (mx_pick m v.2) (λ g, sg_error g v.1);
  gm_errorTree := λ m cv,
    Return (tree_of (λ d, result_bind (mx_pick m d) (λ g, sg_error g cv)));
  gm_logProbability := λ m v, result_bind (mx_pick m v.2) (λ g, sg_logProbability g v.1);
  gm_negLogConstant := mx_negLogConstant;
  gm_equals := mx_equals;
  gm_continuousKeys := λ m, remove_dups (sg_frontal <$> mx_components m);
  gm_discreteKeys := λ m, [mx_mode m];
  gm_nrFrontals := λ _, 1;
  gm_choose := λ m d, match mx_pick m d with Return g => Some g | _ => None end;
  gm_restrictTo := λ m _ _, m;  (* the one mode is still open *)
  dc_error := bt_error;
  dc_errorTree := λ t, Return (tree_of (bt_error t));
  dc_logProbability := λ t v, result_map Ropp (bt_error t v);
  dc_negLogConstant := λ _, Return 0%R;
  dc_equals := bt_equals;
  dc_discreteKeys := λ t, [bt_frontal t; bt_parent t];
  dc_nrFrontals := λ _, 1;
  of_equals_gc := λ _ _ _, false;
  of_equals_gm := λ _ _ _, false;
  of_equals_dc := λ _ _ _, false;
  of_equals := λ a b _, bool_decide (a = b);
  dv_filter := λ d ks, filter (λ kv, kv.1 ∈ ks.*1) d;
  dv_size := length;
  dv_missingKeys := λ d ks, filter (λ k, k.1 ∉ d.*1) ks;
|}.

(** The Gaussian example of the notebook: [p(x0 | x1)], [R = 2], [S = 0.5],
    [d = 1], [sigma = 0.5], evaluated at [x0 = 2], [x1 = 1]. *)
Definition notebook_gc : ScalarGaussian :=
  {| sg_frontal := X 0; sg_parent := Some (X 1);
     sg_R := 2; sg_S := 0.5; sg_d := 1; sg_sigma := 0.5 |}.

Definition notebook_vals_g (d : list (Key * nat)) : @HybridValues scalar_collaborators :=
  ([(X 0, 2%R); (X 1, 1%R)], d).

Definition notebook_hybrid_g : @HybridConditional scalar_collaborators :=
  @fromGaussian scalar_collaborators notebook_gc.

(** The discrete example of the notebook: [P(d0 | d1)] with rows [0.8 0.2]
    and [0.2 0.8]. *)
Definition D (j : N) : Key := symbol 100 j.

Definition notebook_dc : BinaryTable :=
  {| bt_frontal := (D 0, 2); bt_parent := (D 1, 2);
     bt_rows := [[0.8; 0.2]; [0.2; 0.8]]%R |}.

Definition notebook_vals_d (c : list (Key * R)) : @HybridValues scalar_collaborators :=
  (c, [(D 0, 1); (D 1, 0)]).

Definition notebook_hybrid_d : @HybridConditional scalar_collaborators :=
  @fromDiscrete scalar_collaborators notebook_dc.

(** A conditional declared by its keys alone, [P(x0 | x1)]. *)
Definition keys_only_hybrid : @HybridConditional scalar_collaborators :=
  @fromKeys scalar_collaborators [X 0] [] [X 1] [].

(** A conditional declared by its keys, [P(x0, (d0, 2) | x1)]: a continuous
    and a discrete frontal key, and a continuous parent. *)
Definition mixed_keys_hybrid : @HybridConditional scalar_collaborators :=
  @fromKeys scalar_collaborators [X 0] [(D 0, 2)] [X 1] [].

(** The Gaussian example with [d = 3]. *)
Definition shifted_hybrid_g : @HybridConditional scalar_collaborators :=
  @fromGaussian scalar_collaborators
    {| sg_frontal := X 0; sg_parent := Some (X 1);
       sg_R := 2; sg_S := 0.5; sg_d := 3; sg_sigma := 0.5 |}.

(** ** Chebyshev2.h

    [Chebyshev2::matrix] (lines 132-139) samples a vector-valued function at
    the Chebyshev points.  The header declares [Points]; its result is taken
    as given. *)

Section Chebyshev2.
Context {Scalar Column : Type}.
(* [Chebyshev2::Points(N, a, b)] *)
Context (Points : nat → Scalar → Scalar → list Scalar).

(** [Matrix Xmat(M, N)]: [N] columns, none of them written yet. *)
Definition Xmat_new (N : nat) : list (option Column) := replicate N None.

(** The loop [for (j = 0; j < N; j++) Xmat.col(j) = f(points(j))], at most
    [fuel] iterations from [j]; [points(j)] past the end of [points] is
    undefined. *)
Fixpoint matrix_loop (f : Scalar → Column) (points : list Scalar) (N fuel j : nat)
    (Xmat : list (option Column)) : result (list (option Column)) :=
  match fuel with
  | 0 => Return Xmat
  | S fuel' =>
    if decide (j < N) then
      match points !! j with
      | Some p => matrix_loop f points N fuel' (S j) (<[j := Some (f p)]> Xmat)
      | None => Undefined
      end
    else Return Xmat
  end.

Definition Chebyshev2_matrix (f : Scalar → Column) (N : nat) (a b : Scalar)
    : result (list (option Column)) :=
  matrix_loop f (Points N a b) N N 0 (Xmat_new N).

End Chebyshev2.

(** ** The elimination engine, at the level of keys

    [DiscreteFactorGraph.h] declares [EliminateDiscrete] and binds it, with
    [Ordering::Colamd], into [EliminationTraits]; the engine those traits plug
    into ([VariableIndex], [Ordering], [EliminationTree], [JunctionTree],
    [BayesNet], [BayesTree]) is described by the specification.  It is
    modelled here on symbolic factors: a factor is the list of its keys. *)

Definition Factor : Type := list Key.

(** A factor graph: factor handles by position, null where [None]. *)
Definition FactorGraph : Type := list (option Factor).

Definition Ordering : Type := list Key.

(** [P(frontals | parents)], keys only (cf. [SymbolicConditional.ipynb]). *)
Record SymbolicConditional : Type := {
  frontals : list Key;
  parents : list Key;
}.

Definition BayesNet : Type := list SymbolicConditional.

(** The key set of a list of keys: no duplicates, ascending. *)
Definition keyset (l : list Key) : list Key := merge_sort N.le (remove_dups l).

(** Modelled from the spec: the body of the pluggable [Eliminate] function
    (only the declaration of [EliminateDiscrete] is at hand), section 4.4:
    combine the factors into one joint factor over frontal and separator keys,
    and factor it into a conditional [P(frontals | separator)] and a new
    factor on the separator. *)
Definition Eliminate (factors : list Factor) (frontalKeys : list Key)
    : SymbolicConditional * Factor :=
  let joint := keyset (concat factors) in
  let separator := filter (λ k, k ∉ frontalKeys) joint in
  ({| frontals := frontalKeys; parents := separator |}, separator).

(** Modelled from the spec: [VariableIndex] (section 4.1), the positions of
    the factors touching each key; variables in order of first insertion. *)
Definition VariableIndex : Type := list (Key * list nat).

Fixpoint vi_insert (k : Key) (pos : nat) (vi : VariableIndex) : VariableIndex :=
  match vi with
  | [] => [(k, [pos])]
  | (k', ps) :: rest =>
      if decide (k = k')
      then (k', if decide (pos ∈ ps) then ps else ps ++ [pos]) :: rest
      else (k', ps) :: vi_insert k pos rest
  end.

Definition vi_at (vi : VariableIndex) (k : Key) : list nat :=
  match list_find (λ e, e.1 = k) vi with
  | Some (_, (_, ps)) => ps
  | None => []
  end.

Definition vi_augment (vi : VariableIndex) (pos : nat) (f : option Factor)
    : VariableIndex :=
  match f with
  | Some ks => foldl (λ acc k, vi_insert k pos acc) vi ks
  | None => vi
  end.

Definition VariableIndex_build (graph : FactorGraph) : VariableIndex :=
  foldl (λ acc pf, vi_augment acc pf.1 pf.2) [] (imap pair graph).

Definition factorAt (graph : FactorGraph) (pos : nat) : option Factor :=
  mjoin (graph !! pos).

Definition factorsAt (graph : FactorGraph) (ps : list nat) : list Factor :=
  omap (factorAt graph) ps.

(** Modelled from the spec: [EliminationTree] (section 4.3).  A node owns one
    key, the positions of the factors that first mention it, and the
    subtrees whose separator factor it receives. *)
#[warnings="-register-all"]
Inductive ETree : Type :=
| ENode (key : Key) (factors : list nat) (children : list ETree).

(** Construction state: the subtrees built so far that have no parent yet,
    each with the keys of its separator factor, and the consumed positions. *)
Record EState : Type := {
  forest : list (ETree * Factor);
  consumed : list nat;
}.

(** One variable [v] of the ordering: it takes the factors touching it that
    are not consumed yet and the separator factors that mention it; the
    subtrees those came from become its children.  A subtree is picked up
    by the first later variable its separator mentions, which is the parent
    of section 4.3; one that is never picked up stays a root. *)
Definition etree_step (graph : FactorGraph) (vi : VariableIndex) (st : EState)
    (v : Key) : EState :=
  let own := filter (λ p, p ∉ consumed st) (vi_at vi v) in
  let kids := filter (λ ts, v ∈ ts.2) (forest st) in
  let rest := filter (λ ts, v ∉ ts.2) (forest st) in
  let node := ENode v own kids.*1 in
  let sep := (Eliminate (factorsAt graph own ++ kids.*2) [v]).2 in
  {| forest := rest ++ [(node, sep)]; consumed := consumed st ++ own |}.

Definition EliminationTree_build (graph : FactorGraph) (ordering : Ordering) : EState :=
  foldl (etree_step graph (VariableIndex_build graph))
        {| forest := []; consumed := [] |} ordering.

Definition EliminationTree (graph : FactorGraph) (ordering : Ordering) : list ETree :=
  (forest (EliminationTree_build graph ordering)).*1.

(** Modelled from the spec: sequential elimination (section 4.5), a postorder
    traversal; each node eliminates its own factors and its children's
    separator factors with its single key as frontal. *)
Fixpoint eliminateNode (graph : FactorGraph) (t : ETree) : BayesNet * Factor :=
  match t with
  | ENode v fs cs =>
      let rs := map (eliminateNode graph) cs in
      let '(cond, sep) := Eliminate (factorsAt graph fs ++ rs.*2) [v] in
      (concat rs.*1 ++ [cond], sep)
  end.

Definition eliminateSequential (graph : FactorGraph) (ordering : Ordering) : BayesNet :=
  concat (map (λ t, (eliminateNode graph t).1) (EliminationTree graph ordering)).

(** Modelled from the spec: the clusters of a [JunctionTree] (section 4.6). *)
#[warnings="-register-all"]
Inductive Cluster : Type :=
| CNode (orderedFrontalKeys : list Key) (factors : list nat) (children : list Cluster).

Definition orderedFrontalKeys (c : Cluster) : list Key :=
  match c with CNode fr _ _ => fr end.
Definition clusterFactors (c : Cluster) : list nat :=
  match c with CNode _ fs _ => fs end.
Definition clusterChildren (c : Cluster) : list Cluster :=
  match c with CNode _ _ cs => cs end.

(** A child absorbed by its parent's cluster: its frontal keys join the
    frontal set (ahead of the parent's, in elimination order), its factors
    and children become the cluster's. *)
Definition Cluster_merge (acc c : Cluster) : Cluster :=
  CNode (orderedFrontalKeys c ++ orderedFrontalKeys acc)
        (clusterFactors acc ++ clusterFactors c)
        (clusterChildren acc ++ clusterChildren c).

Definition Cluster_addChild (acc c : Cluster) : Cluster :=
  CNode (orderedFrontalKeys acc) (clusterFactors acc) (clusterChildren acc ++ [c]).

(** Modelled from the spec: the merge rule of section 4.6.  A child is
    absorbed when its separator is a subset of the cluster's frontal and
    separator keys. *)
Definition separatorWithin (childSeparator frontal separator : list Key) : bool :=
  bool_decide (childSeparator ⊆ frontal ++ separator).

(** A stricter merge rule, which section 4.6 does not state: the child's
    separator is all of the cluster's frontal and separator keys.  It is the
    rule under which the Bayes tree recorded in [JunctionTree.ipynb] comes
    out; it serves as a concrete merge rule in the examples of Part II. *)
Definition sameSeparator (childSeparator frontal separator : list Key) : bool :=
  bool_decide (childSeparator ⊆ frontal ++ separator)
  && bool_decide (frontal ++ separator ⊆ childSeparator).

Section Junction.
(** The merge rule, applied to a child's separator and the frontal and
    separator keys of the cluster it may join. *)
Variable absorb : list Key → list Key → list Key → bool.

(** Bottom-up walk of the elimination tree: the cluster of a node starts
    with the node's key and factors and takes its children's clusters one by
    one, absorbed or attached.  The second component is the node's separator. *)
Fixpoint cluster_of (graph : FactorGraph) (t : ETree) : Cluster * Factor :=
  match t with
  | ENode v fs cs =>
      let rs := map (cluster_of graph) cs in
      let sep := (Eliminate (factorsAt graph fs ++ rs.*2) [v]).2 in
      (foldl (λ acc r, if absorb r.2 (orderedFrontalKeys acc) sep
                       then Cluster_merge acc r.1 else Cluster_addChild acc r.1)
             (CNode [v] fs []) rs, sep)
  end.

Definition JunctionTree_with (graph : FactorGraph) (ordering : Ordering) : list Cluster :=
  map (λ t, (cluster_of graph t).1) (EliminationTree graph ordering).

End Junction.

Definition JunctionTree : FactorGraph → Ordering → list Cluster :=
  JunctionTree_with separatorWithin.

(** A clique of a [BayesTree]: its conditional and its children. *)
#[warnings="-register-all"]
Inductive Clique : Type :=
| MkClique (conditional : SymbolicConditional) (children : list Clique).

Definition conditional (c : Clique) : SymbolicConditional :=
  match c with MkClique cond _ => cond end.
Definition children (c : Clique) : list Clique :=
  match c with MkClique _ cs => cs end.

(** A [BayesTree], by its root cliques. *)
Definition BayesTree : Type := list Clique.

(** Modelled from the spec: multifrontal elimination (section 4.6).  A
    cluster is eliminated after its children, on its own factors and the
    children's separator factors, with the cluster's frontal keys; the result
    is one clique, parent of the children's cliques. *)
Fixpoint eliminateCluster (graph : FactorGraph) (c : Cluster) : Clique * Factor :=
  match c with
  | CNode fr fs cs =>
      let rs := map (eliminateCluster graph) cs in
      let '(cond, sep) := Eliminate (factorsAt graph fs ++ rs.*2) fr in
      (MkClique cond rs.*1, sep)
  end.

Definition eliminateMultifrontal_with (absorb : list Key → list Key → list Key → bool)
    (graph : FactorGraph) (ordering : Ordering) : BayesTree :=
  map (λ c, (eliminateCluster graph c).1) (JunctionTree_with absorb graph ordering).

Definition eliminateMultifrontal : FactorGraph → Ordering → BayesTree :=
  eliminateMultifrontal_with separatorWithin.

(** All cliques of a subtree, parent first. *)
Fixpoint cliques (c : Clique) : list Clique :=
  match c with
  | MkClique _ cs => c :: concat (map cliques cs)
  end.

Definition BayesTree_cliques (bt : BayesTree) : list Clique := concat (map cliques bt).

Definition nrCliques (bt : BayesTree) : nat := length (BayesTree_cliques bt).

(** The running-intersection property below one clique. *)
#[warnings="-register-all"]
Inductive RunningIntersection : Clique → Prop :=
| RunningIntersection_node cond cs :
    Forall (λ ch, parents (conditional ch) ⊆ frontals cond ++ parents cond) cs →
    Forall RunningIntersection cs →
    RunningIntersection (MkClique cond cs).

(** ** The fill-in-minimizing ordering *)

(** Modelled from the spec: the elimination graph of section 4.2, as the
    list of its cliques: the key sets of the factors not yet eliminated and
    of the fill-in left by eliminated variables.  Two variables are adjacent
    when some clique holds both. *)
Definition EliminationGraph : Type := list (list Key).

Definition positions (vi : VariableIndex) : list nat := remove_dups (concat vi.*2).

Definition eliminationGraph (vi : VariableIndex) : EliminationGraph :=
  map (λ p, (filter (λ e, p ∈ e.2) vi).*1) (positions vi).

Definition neighbours (G : EliminationGraph) (v : Key) : list Key :=
  filter (λ k, k ≠ v) (keyset (concat (filter (λ c, v ∈ c) G))).

Definition adjacent (G : EliminationGraph) (a b : Key) : bool :=
  bool_decide (Exists (λ c, a ∈ c ∧ b ∈ c) G).

(** Pairs of [ks] that are not adjacent yet. *)
Fixpoint missingEdges (G : EliminationGraph) (ks : list Key) : nat :=
  match ks with
  | [] => 0
  | a :: rest => length (filter (λ b, adjacent G a b = false) rest) + missingEdges G rest
  end.

(** The fill-in edges that eliminating [v] would introduce. *)
Definition fillIn (G : EliminationGraph) (v : Key) : nat :=
  missingEdges G (neighbours G v).

Definition eliminateVariable (G : EliminationGraph) (v : Key) : EliminationGraph :=
  filter (λ c, v ∉ c) G ++ [neighbours G v].

(** [v] is at least as good a choice as [w]: fewer fill-in edges, or as many
    and the tie goes to [v]. *)
Definition better (tie : Key → Key → bool) (G : EliminationGraph) (v w : Key) : bool :=
  bool_decide (fillIn G v < fillIn G w)
  || (bool_decide (fillIn G v = fillIn G w) && tie v w).

(** A greedy fill-in-minimizing run: each step eliminates a remaining
    variable that no other remaining variable beats. *)
Definition selects (tie : Key → Key → bool) (G : EliminationGraph) (remaining : list Key)
    (v : Key) : Prop :=
  v ∈ remaining ∧ ∀ w, w ∈ remaining → better tie G v w = true.

Inductive Greedy (tie : Key → Key → bool)
    : EliminationGraph → list Key → Ordering → Prop :=
| Greedy_done G : Greedy tie G [] []
| Greedy_step G remaining v o :
    selects tie G remaining v →
    Greedy tie (eliminateVariable G v) (filter (λ k, k ≠ v) remaining) o →
    Greedy tie G remaining (v :: o).

(** Ties broken by key value (section 4.2). *)
Definition byKey : Key → Key → bool := N.leb.
(** Ties broken in any way. *)
Definition anyTie : Key → Key → bool := λ _ _, true.

(** The least element of a list for [le], the earliest one among equals. *)
Definition argmin {A} (le : A → A → bool) (l : list A) : option A :=
  foldr (λ x best, match best with
                   | Some b => if le x b then Some x else Some b
                   | None => Some x
                   end) None l.

Fixpoint fillInMinimizing (n : nat) (G : EliminationGraph) (remaining : list Key)
    : Ordering :=
  match n with
  | 0 => []
  | S n' =>
    match argmin (better byKey G) remaining with
    | None => []
    | Some v => v :: fillInMinimizing n' (eliminateVariable G v)
                       (filter (λ k, k ≠ v) remaining)
    end
  end.

(** Modelled from the spec: [Ordering::Colamd], the fill-in-minimizing
    heuristic of section 4.2 ([DefaultOrderingFunc] calls it; its body is in
    the library). *)
Definition Colamd (vi : VariableIndex) : Ordering :=
  fillInMinimizing (length vi) (eliminationGraph vi) vi.*1.

(** Every ordering some greedy run can produce, whatever its tie-breaking. *)
Fixpoint allGreedy (n : nat) (G : EliminationGraph) (remaining : list Key)
    : list Ordering :=
  match n with
  | 0 => [[]]
  | S n' =>
    match remaining with
    | [] => [[]]
    | _ =>
      filter (λ v, forallb (better anyTie G v) remaining) remaining
      ≫= λ v, cons v <$> allGreedy n' (eliminateVariable G v)
                                     (filter (λ k, k ≠ v) remaining)
    end
  end.

(** Whether [o] is the ordering of a greedy run. *)
Fixpoint isGreedy (tie : Key → Key → bool) (G : EliminationGraph) (remaining : list Key)
    (o : Ordering) : bool :=
  match o with
  | [] => bool_decide (remaining = [])
  | v :: o' =>
      bool_decide (v ∈ remaining) && forallb (better tie G v) remaining
      && isGreedy tie (eliminateVariable G v) (filter (λ k, k ≠ v) remaining) o'
  end.

(** [EliminationTraits<DiscreteFactorGraph>::DefaultOrderingFunc]
    (DiscreteFactorGraph.h, lines 87-91): the graph is not read; the optional
    index is dereferenced, which is undefined when it is empty. *)
Definition DefaultOrderingFunc (graph : FactorGraph) (variableIndex : option VariableIndex)
    : result Ordering :=
  match variableIndex with
  | Some vi => Return (Colamd vi)
  | None => Undefined
  end.

(** ** The factor graph as an object

    A [FactorGraph] holds shared handles to factor objects; elimination reads
    the handles and allocates the factors it produces.  The store below has
    the graph's vector of handles ([factors_]) and the factor objects by
    handle, in allocation order. *)

Definition Handle : Type := nat.

(** Modelled from the spec: a [FactorGraph] is an ordered sequence of
    optional shared handles to factors, mutable only by append and erase
    (section 3); the factor objects live outside the graph. *)
Record Store : Type := {
  factors_ : list (option Handle);
  objects : list Factor;
}.

(** Computations on the store. *)
Definition St (A : Type) : Type := Store → A * Store.

Definition st_ret {A} (a : A) : St A := λ s, (a, s).

Definition st_bind {A B} (m : St A) (k : A → St B) : St B :=
  λ s, let '(a, s') := m s in k a s'.

Definition st_mapM {A B} (f : A → St B) : list A → St (list B) :=
  fix go (l : list A) : St (list B) :=
    match l with
    | [] => st_ret []
    | a :: l' => st_bind (f a) (λ b, st_bind (go l') (λ bs, st_ret (b :: bs)))
    end.

(** Reading a handle of the graph, and the object behind a handle. *)
Definition handleAt (pos : nat) : St (option Handle) :=
  λ s, (mjoin (factors_ s !! pos), s).

Definition deref (h : Handle) : St (option Factor) :=
  λ s, (objects s !! h, s).

(** [std::make_shared]: a new object, after all existing ones. *)
Definition make_shared (f : Factor) : St Handle :=
  λ s, (length (objects s), {| factors_ := factors_ s; objects := objects s ++ [f] |}).

(** Modelled from the spec: the two mutators of the graph, append and erase
    (section 3). *)
Definition push_back (h : option Handle) : St unit :=
  λ s, (tt, {| factors_ := factors_ s ++ [h]; objects := objects s |}).

Definition erase (pos : nat) : St unit :=
  λ s, (tt, {| factors_ := delete pos (factors_ s); objects := objects s |}).

(** [DiscreteFactorGraph::add] (DiscreteFactorGraph.h, lines 142-145):
    [emplace_shared] makes the factor and appends its handle. *)
Definition add (f : Factor) : St unit :=
  st_bind (make_shared f) (λ h, push_back (Some h)).

(** The graph as elimination sees it: every handle with its factor. *)
Definition view (s : Store) : FactorGraph :=
  (λ oh : option Handle, oh ≫= λ h, objects s !! h) <$> factors_ s.

(** Every handle of the graph points to an object. *)
Definition wellFormed (s : Store) : Prop :=
  ∀ pos h, factors_ s !! pos = Some (Some h) → h < length (objects s).

Definition readFactor (pos : nat) : St (option Factor) :=
  st_bind (handleAt pos) (λ oh,
    match oh with
    | Some h => deref h
    | None => st_ret None
    end).

Definition readFactors (ps : list nat) : St (list Factor) :=
  st_bind (st_mapM readFactor ps) (λ l, st_ret (omap (λ f, f) l)).

(** Modelled from the spec: elimination of a cluster on the store (sections
    4.5 and 4.6): the children first, then the
    cluster's own factors, read through the graph's handles, together with
    the children's separator factors; the new separator factor is allocated
    and its handle passed up. *)
Fixpoint eliminateClusterSt (c : Cluster) : St (Clique * Handle) :=
  match c with
  | CNode fr fs cs =>
      st_bind (st_mapM eliminateClusterSt cs) (λ rs,
      st_bind (readFactors fs) (λ own,
      st_bind (st_mapM deref rs.*2) (λ seps,
      let '(cond, sep) := Eliminate (own ++ omap (λ f, f) seps) fr in
      st_bind (make_shared sep) (λ h,
      st_ret (MkClique cond rs.*1, h)))))
  end.

(** Modelled from the spec: multifrontal elimination called on the graph
    object (section 4.6). *)
Definition eliminateMultifrontalSt (ordering : Ordering) : St BayesTree :=
  λ s, st_bind (st_mapM eliminateClusterSt (JunctionTree (view s) ordering))
               (λ rs, st_ret rs.*1) s.

(** A node of the elimination tree is a cluster with a single frontal key;
    the Bayes net lists the conditionals children first. *)
Fixpoint singletonCluster (t : ETree) : Cluster :=
  match t with
  | ENode v fs cs => CNode [v] fs (map singletonCluster cs)
  end.

Fixpoint postorder (c : Clique) : BayesNet :=
  match c with
  | MkClique cond cs => concat (map postorder cs) ++ [cond]
  end.

(** Modelled from the spec: sequential elimination called on the graph
    object (section 4.5). *)
Definition eliminateSequentialSt (ordering : Ordering) : St BayesNet :=
  λ s, st_bind (st_mapM eliminateClusterSt
                        (singletonCluster <$> EliminationTree (view s) ordering))
               (λ rs, st_ret (concat (postorder <$> rs.*1))) s.

(** Modelled from the spec: the calls on a factor graph, the two mutators
    and the operations that read it. *)
Inductive GraphCall : Type :=
| call_add (f : Factor)
| call_erase (pos : nat)
| call_keys
| call_variableIndex
| call_eliminateSequential (ordering : Ordering)
| call_eliminateMultifrontal (ordering : Ordering).

Inductive CallOutput : Type :=
| out_void
| out_keys (ks : list Key)
| out_index (vi : VariableIndex)
| out_bayesNet (bn : BayesNet)
| out_bayesTree (bt : BayesTree).

Definition isMutator (c : GraphCall) : bool :=
  match c with
  | call_add _ | call_erase _ => true
  | _ => false
  end.

(** One call, on the store. *)
Definition invoke (c : GraphCall) : St CallOutput :=
  match c with
  | call_add f => st_bind (add f) (λ _, st_ret out_void)
  | call_erase pos => st_bind (erase pos) (λ _, st_ret out_void)
  | call_keys => λ s, (out_keys (keyset (concat (omap (λ f, f) (view s)))), s)
  | call_variableIndex => λ s, (out_index (VariableIndex_build (view s)), s)
  | call_eliminateSequential o =>
      st_bind (eliminateSequentialSt o) (λ bn, st_ret (out_bayesNet bn))
  | call_eliminateMultifrontal o =>
      st_bind (eliminateMultifrontalSt o) (λ bt, st_ret (out_bayesTree bt))
  end.

(** A sequence of calls on one graph object. *)
Definition run (calls : list GraphCall) : St (list CallOutput) := st_mapM invoke calls.

(** The store after [s] in which the graph's handles are the same and every
    object of [s] is still in place. *)
Definition extends (s s' : Store) : Prop :=
  factors_ s' = factors_ s ∧ ∃ new, objects s' = objects s ++ new.

(** A computation that leaves the graph's handles and the existing objects
    as they are. *)
Definition frames {A} (m : St A) : Prop := ∀ s, extends s (m s).2.

(** On every store after [s0], eliminating [c] on the store returns the
    clique that eliminating it on the graph seen in [s0] returns, and a
    handle to that separator factor. *)
Definition refinesAt (s0 : Store) (c : Cluster) : Prop :=
  ∀ s, extends s0 s →
    ∃ h s', eliminateClusterSt c s = (((eliminateCluster (view s0) c).1, h), s')
            ∧ extends s s'
            ∧ objects s' !! h = Some (eliminateCluster (view s0) c).2.

(** The store holding the notebook's graph, one object per factor. *)
Definition store_of (graph : list Factor) : Store :=
  {| factors_ := Some <$> seq 0 (length graph); objects := graph |}.

(** ** The graph of the notebooks *)

(** [JunctionTree.ipynb] and [EliminationTree.ipynb]: a prior on [x0],
    odometry [x0-x1], [x1-x2], and landmark observations [l1-x0], [l1-x1],
    [l2-x1], [l2-x2]. *)
Definition notebook_graph : FactorGraph :=
  [Some [X 0]; Some [X 0; X 1]; Some [X 1; X 2];
   Some [L 1; X 0]; Some [L 1; X 1]; Some [L 2; X 1]; Some [L 2; X 2]].

(** The pattern of landmark observations alone: [x0], [x1] and [x2] each
    observe both landmarks. *)
Definition landmarks_only_graph : FactorGraph :=
  [Some [L 1; X 0]; Some [L 2; X 0]; Some [L 1; X 1]; Some [L 2; X 1];
   Some [L 1; X 2]; Some [L 2; X 2]].

(** The orderings a greedy fill-in-minimizing heuristic can return on a
    graph, whatever its tie-breaking. *)
Definition GreedyOrdering (graph : FactorGraph) (o : Ordering) : Prop :=
  Greedy anyTie (eliminationGraph (VariableIndex_build graph))
         (VariableIndex_build graph).*1 o.

Definition greedyOrderings (graph : FactorGraph) : list Ordering :=
  allGreedy (length (VariableIndex_build graph))
            (eliminationGraph (VariableIndex_build graph))
            (VariableIndex_build graph).*1.

(** The ordering of the notebook's [EliminationTree] example. *)
Definition notebook_ordering : Ordering := [X 0; L 1; X 1; L 2; X 2].

(** The elimination order behind the Bayes tree the notebook prints. *)
Definition notebook_colamd : Ordering := [L 1; X 0; X 1; L 2; X 2].

(** The Bayes tree the notebook prints: [p(x1 l2 x2)] with the child
    [p(l1 x0 | x1)]. *)
Definition notebook_child : Clique :=
  MkClique {| frontals := [L 1; X 0]; parents := [X 1] |} [].
Definition notebook_root : Clique :=
  MkClique {| frontals := [X 1; L 2; X 2]; parents := [] |} [notebook_child].

Definition notebook_store : Store := store_of (omap (λ f, f) notebook_graph).

(* ===================================================================== *)
(** * Part II. Theorems                                                   *)
(* ===================================================================== *)

Section HybridConditionalFacts.
Context `{Collab : Collaborators}.

Lemma handled_false_casts (hc : HybridConditional) :
  handled hc = false →
  asGaussian hc = None ∧ asHybrid hc = None ∧ asDiscrete hc = None.
Proof.
  unfold handled, asGaussian, asHybrid, asDiscrete.
  destruct (inner_ hc) as [[gc|gm|dc|o]|]; intros Hh; try discriminate Hh; auto.
Qed.

Lemma not_handled_inner (hc : HybridConditional) :
  inner_ hc = None ∨ (∃ o, inner_ hc = Some (InnerOther o)) ↔ handled hc = false.
Proof.
  unfold handled. split.
  - intros [-> | [o ->]]; reflexivity.
  - destruct (inner_ hc) as [[gc|gm|dc|o]|]; intros Hh; try discriminate Hh; eauto.
Qed.

Lemma logProbability_returns_handled (hc : HybridConditional) (values : HybridValues) x :
  HybridConditional_logProbability hc values = Return x → handled hc = true.
Proof.
  unfold HybridConditional_logProbability, handled, asGaussian, asHybrid, asDiscrete.
  destruct (inner_ hc) as [[gc|gm|dc|o]|]; intros Hl; try reflexivity; discriminate Hl.
Qed.

(** C8: wherever [logProbability] returns a value [x] (which requires a
    Gaussian, hybrid-Gaussian or discrete inner conditional), [evaluate]
    returns [std::exp(x)]. *)
Theorem evaluate_exp_logProbability (hc : HybridConditional) (values : HybridValues)
    (x : double) :
  HybridConditional_logProbability hc values = Return x →
  handled hc = true ∧ HybridConditional_evaluate hc values = Return (std_exp x).
Proof.
  intros Hl. split.
  - eapply logProbability_returns_handled, Hl.
  - unfold HybridConditional_evaluate. rewrite Hl. reflexivity.
Qed.

(** C9: the error of a wrapped Gaussian conditional is a function of the
    continuous part of the assignment alone, and the error of a wrapped
    discrete conditional of the discrete part alone. *)
Theorem error_reads_matching_part (hc : HybridConditional) (v1 v2 : HybridValues) :
  (is_Some (asGaussian hc) ∧ continuous v1 = continuous v2)
  ∨ (is_Some (asDiscrete hc) ∧ discrete v1 = discrete v2) →
  HybridConditional_error hc v1 = HybridConditional_error hc v2.
Proof.
  unfold HybridConditional_error, asGaussian, asHybrid, asDiscrete.
  intros [[[gc Hgc] Heq] | [[dc Hdc] Heq]].
  - destruct (inner_ hc) as [[gc'|gm|dc|o]|]; try discriminate Hgc.
    rewrite Heq. reflexivity.
  - destruct (inner_ hc) as [[gc|gm|dc'|o]|]; try discriminate Hdc.
    rewrite Heq. reflexivity.
Qed.

(** C10: with no inner conditional, or one outside the three handled
    families, [error], [errorTree], [logProbability] and [negLogConstant]
    throw [std::runtime_error] and return nothing. *)
Theorem unhandled_inner_throws (hc : HybridConditional) (values : HybridValues)
    (continuousValues : VectorValues) :
  inner_ hc = None ∨ (∃ o, inner_ hc = Some (InnerOther o)) →
  HybridConditional_error hc values
    = Throw (runtime_error "HybridConditional::error: conditional type not handled"%string)
  ∧ HybridConditional_errorTree hc continuousValues
    = Throw (runtime_error "HybridConditional::error: conditional type not handled"%string)
  ∧ HybridConditional_logProbability hc values
    = Throw (runtime_error
               "HybridConditional::logProbability: conditional type not handled"%string)
  ∧ HybridConditional_negLogConstant hc
    = Throw (runtime_error
               "HybridConditional::negLogConstant: conditional type not handled"%string).
Proof.
  intros Hin. apply not_handled_inner, handled_false_casts in Hin as (Hg & Hh & Hd).
  unfold HybridConditional_error, HybridConditional_errorTree,
    HybridConditional_logProbability, HybridConditional_negLogConstant.
  rewrite Hg, Hh, Hd. repeat split.
Qed.

Lemma size_t_sub_small (a b : nat) :
  b ≤ a → (Z.of_nat a < 2 ^ 64)%Z → size_t_sub a b = Z.of_nat (a - b).
Proof.
  intros Hle Hlt. unfold size_t_sub. rewrite Z.mod_small; lia.
Qed.



(** [evaluate] returns exactly when [logProbability] returns, and otherwise
    ends the way [logProbability] ends. *)
Lemma evaluate_fails_with_logProbability (hc : HybridConditional) (values : HybridValues) :
  match HybridConditional_logProbability hc values with
  | Return x => HybridConditional_evaluate hc values = Return (std_exp x)
  | Throw e => HybridConditional_evaluate hc values = Throw e
  | Undefined => HybridConditional_evaluate hc values = Undefined
  end.
Proof.
  unfold HybridConditional_evaluate.
  destruct (HybridConditional_logProbability hc values); reflexivity.
Qed.

(** X4: [logProbability] and [evaluate] of a wrapped Gaussian conditional
    read the continuous part of the assignment alone, those of a wrapped
    discrete conditional the discrete part alone. *)
Theorem logProbability_reads_matching_part (hc : HybridConditional) (v1 v2 : HybridValues) :
  (is_Some (asGaussian hc) ∧ continuous v1 = continuous v2)
  ∨ (is_Some (asDiscrete hc) ∧ discrete v1 = discrete v2) →
  HybridConditional_logProbability hc v1 = HybridConditional_logProbability hc v2
  ∧ HybridConditional_evaluate hc v1 = HybridConditional_evaluate hc v2.
Proof.
  intros Hsame.
  assert (Hl : HybridConditional_logProbability hc v1
               = HybridConditional_logProbability hc v2).
  { unfold HybridConditional_logProbability, asGaussian, asHybrid, asDiscrete in *.
    destruct Hsame as [[[gc Hgc] Heq] | [[dc Hdc] Heq]];
      destruct (inner_ hc) as [[gc'|gm|dc'|o]|]; try discriminate;
      rewrite Heq; reflexivity. }
  split; [exact Hl|]. unfold HybridConditional_evaluate. rewrite Hl. reflexivity.
Qed.

(** X3: [errorTree] of a wrapped Gaussian conditional is the one-leaf tree of
    its [error] at the same continuous values. *)
Theorem errorTree_Gaussian_constant (hc : HybridConditional) (values : HybridValues) :
  is_Some (asGaussian hc) →
  HybridConditional_errorTree hc (continuous values)
  = result_map constantTree (HybridConditional_error hc values).
Proof.
  intros [gc Hgc]. unfold HybridConditional_errorTree, HybridConditional_error.
  rewrite Hgc. reflexivity.
Qed.

(** X2: [equals] never identifies a conditional of one handled family with a
    conditional of another family, or with one that has no handled inner
    conditional. *)
Theorem equals_distinguishes_families (hc e : HybridConditional) (tol : double) :
  handled hc = true →
  family hc ≠ family e →
  HybridConditional_equals hc (Some e) tol = false.
Proof.
  unfold handled, family, HybridConditional_equals, asHybrid, asGaussian, asDiscrete.
  destruct (inner_ hc) as [[gc|gm|dc|o]|]; intros Hh Hf; try discriminate Hh;
    destruct (inner_ e) as [[gc'|gm'|dc'|o']|]; try reflexivity; contradiction.
Qed.

(** X1: [restrict] hands back a wrapped Gaussian or discrete conditional as it
    is, whatever the assignment; on a hybrid-Gaussian one it returns a
    handled conditional (or dereferences the null conditional of a missing
    mode); with no handled inner conditional it throws. *)
Theorem restrict_by_family (hc : HybridConditional) (assignment : DiscreteValues) :
  match inner_ hc with
  | Some (InnerGaussian gc) =>
      HybridConditional_restrict hc assignment = Return (fromGaussian gc)
  | Some (InnerDiscrete dc) =>
      HybridConditional_restrict hc assignment = Return (fromDiscrete dc)
  | Some (InnerHybrid gm) =>
      match HybridConditional_restrict hc assignment with
      | Return r => family r = Some GaussianFamily ∨ family r = Some HybridFamily
      | Throw _ => False
      | Undefined =>
          gm_choose gm (dv_filter assignment (discreteKeys_ hc)) = None
      end
  | Some (InnerOther _) | None =>
      HybridConditional_restrict hc assignment
      = Throw (runtime_error
                 "HybridConditional::restrict: conditional type not handled"%string)
  end.
Proof.
  unfold HybridConditional_restrict, asHybrid, asGaussian, asDiscrete.
  destruct (inner_ hc) as [[gc|gm|dc|o]|]; try reflexivity.
  case_decide as Hsize.
  - destruct (gm_choose gm _) as [gc|]; [left|]; reflexivity.
  - case_bool_decide; right; reflexivity.
Qed.

Lemma print_loop_layout (hc : HybridConditional) (N : nat) (toks : list Token)
    (fuel index : nat) :
  length (discreteKeys_ hc) ≤ N →
  toks = (tok_key <$> take (N - length (discreteKeys_ hc)) (keys hc))
         ++ (tok_discreteKey <$> discreteKeys_ hc) →
  N = length (keys hc) →
  index + fuel = N →
  print_loop hc N (Z.of_nat (N - length (discreteKeys_ hc))) fuel index
  = concat (imap (λ i t, separatorBefore hc (index + i) ++ [t]) (drop index toks)).
Proof.
  intros Hdk Htoks HN.
  assert (Hlen : length toks = N).
  { rewrite Htoks, length_app, !length_fmap, length_take. lia. }
  revert index. induction fuel as [|fuel IH]; intros index Hsum.
  - simpl. rewrite drop_ge by lia. reflexivity.
  - cbn [print_loop]. rewrite decide_True by lia.
    rewrite (IH (S index)) by lia. clear IH.
    assert (Hkey : ∃ t, toks !! index = Some t ∧
      (if decide (Z.of_nat index < Z.of_nat (N - length (discreteKeys_ hc)))%Z
       then option_list (tok_key <$> keys hc !! index)
       else option_list (tok_discreteKey
              <$> discreteKeys_ hc !! Z.to_nat (Z.of_nat index
                                                 - Z.of_nat (N - length (discreteKeys_ hc)))))
      = [t]).
    { case_decide as Hc.
      - destruct (lookup_lt_is_Some_2 (keys hc) index ltac:(lia)) as [k Hk].
        exists (tok_key k). rewrite Hk. split; [|reflexivity].
        rewrite Htoks, lookup_app_l by (rewrite length_fmap, length_take; lia).
        rewrite list_lookup_fmap, lookup_take_lt by lia. rewrite Hk. reflexivity.
      - replace (Z.to_nat (Z.of_nat index - Z.of_nat (N - length (discreteKeys_ hc))))
          with (index - (N - length (discreteKeys_ hc))) by lia.
        destruct (lookup_lt_is_Some_2 (discreteKeys_ hc)
                    (index - (N - length (discreteKeys_ hc))) ltac:(lia)) as [dk Hk].
        exists (tok_discreteKey dk). split; [|exact (f_equal (λ o, option_list (tok_discreteKey <$> o)) Hk)].
        rewrite Htoks, lookup_app_r by (rewrite length_fmap, length_take; lia).
        rewrite length_fmap, length_take, list_lookup_fmap.
        rewrite Nat.min_l by lia.
        exact (f_equal (fmap tok_discreteKey) Hk). }
    destruct Hkey as (t & Ht & ->).
    rewrite (drop_S _ _ _ Ht). cbn [imap concat].
    rewrite Nat.add_0_r. unfold separatorBefore at 2.
    rewrite <- app_assoc. f_equal. f_equal. f_equal.
    apply imap_ext. intros i x _. simpl. rewrite Nat.add_succ_r. reflexivity.
Qed.

(** X6: with no inner conditional, [print] writes the first
    [N - discreteKeys_.size()] entries of [keys()] as plain keys and then
    every entry of [discreteKeys_] with its cardinality, in order; the
    separator before a key is the bar exactly at position [nrFrontals_]. *)
Theorem print_keys_layout (hc : HybridConditional) :
  inner_ hc = None →
  length (discreteKeys_ hc) ≤ length (keys hc) →
  (Z.of_nat (length (keys hc)) < 2 ^ 64)%Z →
  print_keys hc
  = concat (imap (λ i t, separatorBefore hc i ++ [t])
              ((tok_key <$> take (length (keys hc) - length (discreteKeys_ hc)) (keys hc))
               ++ (tok_discreteKey <$> discreteKeys_ hc))).
Proof.
  intros Hinner Hdk Hsize. unfold print_keys. rewrite Hinner.
  rewrite size_t_sub_small by assumption.
  rewrite (print_loop_layout hc (length (keys hc)) _ (length (keys hc)) 0 Hdk eq_refl eq_refl)
    by reflexivity.
  reflexivity.
Qed.

(** With an inner conditional, [print] leaves the key list to the inner
    conditional's [print]: the loop writes nothing. *)
Lemma print_keys_inner (hc : HybridConditional) :
  is_Some (inner_ hc) → print_keys hc = [].
Proof. intros [i Hi]. unfold print_keys. rewrite Hi. reflexivity. Qed.

Lemma tokenKey_layout (hc : HybridConditional) (index : nat) (toks : list Token) :
  omap tokenKey (concat (imap (λ i t, separatorBefore hc (index + i) ++ [t]) toks))
  = omap tokenKey toks.
Proof.
  revert index. induction toks as [|t toks IH]; intros index; [reflexivity|].
  cbn [imap concat]. rewrite !omap_app.
  assert (Hsep : omap tokenKey (separatorBefore hc (index + 0)) = []).
  { unfold separatorBefore. repeat case_decide; reflexivity. }
  rewrite Hsep. change (t :: toks) with ([t] ++ toks).
  rewrite omap_app, <- (IH (S index)). cbn [app]. do 3 f_equal.
  apply imap_ext. intros i x _. simpl. rewrite Nat.add_succ_r. reflexivity.
Qed.

(** X7: a conditional built from keys alone prints the continuous keys,
    frontals before parents, and then the discrete keys, frontals before
    parents; these are exactly [keys()], each written once, and the bar
    stands before position [continuousFrontals.size() +
    discreteFrontals.size()] of that list. *)
Theorem print_fromKeys (continuousFrontals continuousParents : list Key)
    (discreteFrontals discreteParents : list DiscreteKey) :
  let hc := fromKeys continuousFrontals discreteFrontals continuousParents discreteParents in
  (Z.of_nat (length (keys hc)) < 2 ^ 64)%Z →
  print_keys hc
  = concat (imap (λ i t,
                    (if decide (0 < i)
                     then [if decide (i = length continuousFrontals + length discreteFrontals)
                           then tok_bar else tok_comma]
                     else []) ++ [t])
              ((tok_key <$> continuousFrontals ++ continuousParents)
               ++ (tok_discreteKey <$> discreteFrontals ++ discreteParents)))
  ∧ omap tokenKey (print_keys hc) = keys hc.
Proof.
  intros hc Hsize.
  assert (Hdk : length (discreteKeys_ hc) ≤ length (keys hc)).
  { unfold hc, fromKeys. cbn [keys discreteKeys_]. rewrite !length_app, length_fmap, !length_app. lia. }
  assert (Htake : take (length (keys hc) - length (discreteKeys_ hc)) (keys hc)
                  = continuousFrontals ++ continuousParents).
  { unfold hc, fromKeys. cbn [keys discreteKeys_].
    rewrite take_app_le by (rewrite !length_app, length_fmap, !length_app; lia).
    apply take_ge. rewrite !length_app, length_fmap, !length_app. lia. }
  unfold print_keys. change (inner_ hc) with (@None Inner). cbv beta iota zeta.
  rewrite size_t_sub_small by assumption.
  rewrite (print_loop_layout hc (length (keys hc)) _ (length (keys hc)) 0 Hdk eq_refl eq_refl)
    by reflexivity.
  rewrite drop_0, Htake. split; [reflexivity|].
  rewrite (tokenKey_layout hc 0).
  rewrite omap_app. unfold hc, fromKeys. cbn [keys discreteKeys_]. f_equal.
  - generalize (continuousFrontals ++ continuousParents). intros l.
    induction l as [|k l IHl]; [reflexivity|]. simpl. f_equal. exact IHl.
  - generalize (discreteFrontals ++ discreteParents). intros l.
    induction l as [|k l IHl]; [reflexivity|]. simpl. f_equal. exact IHl.
Qed.

(** X8: [equals] compares the inner conditionals and nothing else: the keys,
    the discrete keys and the number of frontals of the two conditionals are
    never read.  In particular two conditionals without inner conditional
    are equal whatever their keys, and a conditional without inner
    conditional differs from every conditional that has one. *)
Theorem equals_ignores_keys (hc hc' e e' : HybridConditional) (tol : double) :
  inner_ hc' = inner_ hc →
  inner_ e' = inner_ e →
  HybridConditional_equals hc' (Some e') tol = HybridConditional_equals hc (Some e) tol
  ∧ match inner_ hc, inner_ e with
    | None, None => HybridConditional_equals hc' (Some e') tol = true
    | None, Some _ => HybridConditional_equals hc' (Some e') tol = false
    | Some _, _ => True
    end.
Proof.
  intros Hhc He.
  assert (Heq : HybridConditional_equals hc' (Some e') tol
                = HybridConditional_equals hc (Some e) tol).
  { unfold HybridConditional_equals, asHybrid, asGaussian, asDiscrete.
    rewrite Hhc, He. reflexivity. }
  split; [exact Heq|]. rewrite Heq.
  unfold HybridConditional_equals, asHybrid, asGaussian, asDiscrete.
  destruct (inner_ hc) as [i|]; [exact I|].
  destruct (inner_ e) as [j|]; reflexivity.
Qed.

(** X9: on conditionals that wrap a Gaussian, a hybrid-Gaussian or a discrete
    conditional, or nothing, [equals] is symmetric whenever the wrapped
    conditionals' own [equals] is. *)
Theorem equals_symmetric (hc e : HybridConditional) (tol : double) :
  (∀ o, inner_ hc ≠ Some (InnerOther o)) →
  (∀ o, inner_ e ≠ Some (InnerOther o)) →
  (∀ a b, asGaussian hc = Some a → asGaussian e = Some b →
          gc_equals a b tol = gc_equals b a tol) →
  (∀ a b, asHybrid hc = Some a → asHybrid e = Some b →
          gm_equals a b tol = gm_equals b a tol) →
  (∀ a b, asDiscrete hc = Some a → asDiscrete e = Some b →
          dc_equals a b tol = dc_equals b a tol) →
  HybridConditional_equals hc (Some e) tol = HybridConditional_equals e (Some hc) tol.
Proof.
  unfold HybridConditional_equals, asHybrid, asGaussian, asDiscrete.
  intros Hhc He Hg Hm Hd.
  destruct (inner_ hc) as [[gc|gm|dc|o]|]; [| | |destruct (Hhc o eq_refl)|];
    (destruct (inner_ e) as [[gc'|gm'|dc'|o']|]; [| | |destruct (He o' eq_refl)|]);
    try reflexivity.
  - apply Hg; reflexivity.
  - apply Hm; reflexivity.
  - apply Hd; reflexivity.
Qed.

(** X10: [restrict] of a wrapped Gaussian or discrete conditional returns a
    conditional around the same inner conditional: [error], [errorTree],
    [logProbability], [negLogConstant] and [evaluate] are what they were,
    and restricting the result again, by any assignment, returns it
    unchanged. *)
Theorem restrict_keeps_values (hc : HybridConditional) (assignment : DiscreteValues)
    (values : HybridValues) (continuousValues : VectorValues) :
  is_Some (asGaussian hc) ∨ is_Some (asDiscrete hc) →
  ∃ r, HybridConditional_restrict hc assignment = Return r
       ∧ inner_ r = inner_ hc
       ∧ HybridConditional_error r values = HybridConditional_error hc values
       ∧ HybridConditional_errorTree r continuousValues
         = HybridConditional_errorTree hc continuousValues
       ∧ HybridConditional_logProbability r values
         = HybridConditional_logProbability hc values
       ∧ HybridConditional_negLogConstant r = HybridConditional_negLogConstant hc
       ∧ HybridConditional_evaluate r values = HybridConditional_evaluate hc values
       ∧ ∀ other, HybridConditional_restrict r other = Return r.
Proof.
  unfold HybridConditional_restrict, HybridConditional_evaluate,
    HybridConditional_error, HybridConditional_errorTree,
    HybridConditional_logProbability, HybridConditional_negLogConstant,
    asGaussian, asHybrid, asDiscrete.
  intros [[gc Hgc] | [dc Hdc]].
  - destruct (inner_ hc) as [[gc'|gm|dc|o]|]; try discriminate Hgc.
    exists (fromGaussian gc'). repeat split.
  - destruct (inner_ hc) as [[gc|gm|dc'|o]|]; try discriminate Hdc.
    exists (fromDiscrete dc'). repeat split.
Qed.

End HybridConditionalFacts.

(** The Gaussian example of the notebook returns a log-probability, and its
    probability is the exponential of it. *)
Lemma evaluate_exp_logProbability_notebook :
  let hc := notebook_hybrid_g in
  let v := notebook_vals_g [] in
  let x := (- (((2 * 2 + 0.5 * 1 - 1) / 0.5) ^ 2 / 2)
            - sg_negLogConstant notebook_gc)%R in
  HybridConditional_logProbability hc v = Return x
  ∧ handled hc = true
  ∧ HybridConditional_evaluate hc v = Return (exp x).
Proof.
  intros hc v x.
  assert (Hl : HybridConditional_logProbability hc v = Return x) by reflexivity.
  split; [exact Hl|].
  exact (evaluate_exp_logProbability hc v x Hl).
Defined.

(** The Gaussian example has the same error whatever the discrete part, the
    discrete example whatever the continuous part. *)
Lemma error_reads_matching_part_notebook :
  HybridConditional_error notebook_hybrid_g (notebook_vals_g [])
    = HybridConditional_error notebook_hybrid_g (notebook_vals_g [(D 0, 1)])
  ∧ HybridConditional_error notebook_hybrid_d (notebook_vals_d [])
    = HybridConditional_error notebook_hybrid_d (notebook_vals_d [(X 0, 2%R)]).
Proof.
  split.
  - apply (error_reads_matching_part notebook_hybrid_g
             (notebook_vals_g []) (notebook_vals_g [(D 0, 1)])).
    left. split; [eexists; reflexivity | reflexivity].
  - apply (error_reads_matching_part notebook_hybrid_d
             (notebook_vals_d []) (notebook_vals_d [(X 0, 2%R)])).
    right. split; [eexists; reflexivity | reflexivity].
Defined.

(** The log-probability of the discrete example is the same whatever the
    continuous part of the assignment. *)
Lemma logProbability_reads_matching_part_notebook :
  (is_Some (asDiscrete notebook_hybrid_d)
   ∧ discrete (notebook_vals_d []) = discrete (notebook_vals_d [(X 0, 2%R)]))
  ∧ HybridConditional_logProbability notebook_hybrid_d (notebook_vals_d [])
    = HybridConditional_logProbability notebook_hybrid_d (notebook_vals_d [(X 0, 2%R)])
  ∧ HybridConditional_evaluate notebook_hybrid_d (notebook_vals_d [])
    = HybridConditional_evaluate notebook_hybrid_d (notebook_vals_d [(X 0, 2%R)]).
Proof.
  assert (Hd : is_Some (asDiscrete notebook_hybrid_d)
               ∧ discrete (notebook_vals_d []) = discrete (notebook_vals_d [(X 0, 2%R)]))
    by (split; [eexists; reflexivity | reflexivity]).
  split; [exact Hd|].
  exact (logProbability_reads_matching_part notebook_hybrid_d
           (notebook_vals_d []) (notebook_vals_d [(X 0, 2%R)]) (or_intror Hd)).
Defined.

(** The Gaussian example: its error tree at the notebook's values is the
    one-leaf tree of its error. *)
Lemma errorTree_Gaussian_constant_notebook :
  is_Some (asGaussian notebook_hybrid_g)
  ∧ HybridConditional_errorTree notebook_hybrid_g (continuous (notebook_vals_g []))
    = result_map constantTree (HybridConditional_error notebook_hybrid_g (notebook_vals_g [])).
Proof.
  assert (Hg : is_Some (asGaussian notebook_hybrid_g)) by (eexists; reflexivity).
  split; [exact Hg|].
  exact (errorTree_Gaussian_constant notebook_hybrid_g (notebook_vals_g []) Hg).
Defined.

(** The Gaussian and the discrete example are not equal, whatever the
    tolerance. *)
Lemma equals_distinguishes_families_notebook :
  handled notebook_hybrid_g = true
  ∧ family notebook_hybrid_g ≠ family notebook_hybrid_d
  ∧ HybridConditional_equals notebook_hybrid_g (Some notebook_hybrid_d) 0%R = false.
Proof.
  assert (Hf : family notebook_hybrid_g ≠ family notebook_hybrid_d) by discriminate.
  split; [reflexivity|]. split; [exact Hf|].
  exact (equals_distinguishes_families notebook_hybrid_g notebook_hybrid_d 0%R eq_refl Hf).
Defined.


(** A conditional built from keys alone has no inner conditional: the four
    operations throw. *)
Lemma unhandled_inner_throws_fromKeys :
  let hc := keys_only_hybrid in
  inner_ hc = None
  ∧ HybridConditional_error hc (notebook_vals_g [])
    = Throw (runtime_error "HybridConditional::error: conditional type not handled"%string)
  ∧ HybridConditional_negLogConstant hc
    = Throw (runtime_error
               "HybridConditional::negLogConstant: conditional type not handled"%string).
Proof.
  intros hc. split; [reflexivity|].
  destruct (unhandled_inner_throws hc (notebook_vals_g []) ([] : list (Key * R))
              (or_introl eq_refl))
    as (He & _ & _ & Hn).
  split; [exact He | exact Hn].
Defined.

(** The conditional [P(x0, (d0, 2) | x1)] declared by its keys lists the
    continuous parent [x1] before the bar and the discrete frontal [d0] after
    it. *)
Lemma print_keys_layout_mixed :
  let hc := mixed_keys_hybrid in
  print_keys hc = [tok_key (X 0); tok_comma; tok_key (X 1); tok_bar; tok_discreteKey (D 0, 2)].
Proof.
  intros hc.
  rewrite (print_keys_layout hc); [reflexivity | reflexivity | simpl; lia | simpl; lia].
Defined.

(** The same conditional, through its constructor. *)
Lemma print_fromKeys_mixed :
  print_keys mixed_keys_hybrid
  = [tok_key (X 0); tok_comma; tok_key (X 1); tok_bar; tok_discreteKey (D 0, 2)]
  ∧ omap tokenKey (print_keys mixed_keys_hybrid) = [X 0; X 1; D 0].
Proof.
  destruct (@print_fromKeys scalar_collaborators [X 0] [X 1] [(D 0, 2)] [])
    as [Hp Hk]; [simpl; lia|].
  split; [exact Hp | exact Hk].
Defined.

(** Conditionals declared by different keys are equal. *)
Lemma equals_ignores_keys_keys_only :
  HybridConditional_equals mixed_keys_hybrid (Some keys_only_hybrid) 0%R = true.
Proof.
  destruct (equals_ignores_keys keys_only_hybrid mixed_keys_hybrid
              keys_only_hybrid keys_only_hybrid 0%R eq_refl eq_refl) as [_ Hn].
  exact Hn.
Defined.

Lemma sg_equals_sym (a b : ScalarGaussian) (tol : R) : sg_equals a b tol = sg_equals b a tol.
Proof.
  unfold sg_equals, close.
  rewrite (Rabs_minus_sym (sg_R a)), (Rabs_minus_sym (sg_S a)),
    (Rabs_minus_sym (sg_d a)), (Rabs_minus_sym (sg_sigma a)).
  rewrite (bool_decide_ext (sg_frontal a = sg_frontal b) (sg_frontal b = sg_frontal a))
    by (split; congruence).
  rewrite (bool_decide_ext (sg_parent a = sg_parent b) (sg_parent b = sg_parent a))
    by (split; congruence).
  reflexivity.
Qed.

(** The Gaussian example against the Gaussian [p(x0 | x1)] with [d = 3]. *)
Lemma equals_symmetric_notebook :
  HybridConditional_equals notebook_hybrid_g (Some shifted_hybrid_g) 0%R
  = HybridConditional_equals shifted_hybrid_g (Some notebook_hybrid_g) 0%R.
Proof.
  apply (equals_symmetric notebook_hybrid_g shifted_hybrid_g 0%R).
  - intros o Ho. discriminate Ho.
  - intros o Ho. discriminate Ho.
  - intros a b _ _. apply sg_equals_sym.
  - intros a b Ha. discriminate Ha.
  - intros a b Ha. discriminate Ha.
Defined.

(** The discrete example, restricted to [d1 = 0], is the table it was. *)
Lemma restrict_keeps_values_notebook :
  ∃ r, HybridConditional_restrict notebook_hybrid_d [(D 1, 0)] = Return r
       ∧ inner_ r = inner_ notebook_hybrid_d
       ∧ HybridConditional_error r (notebook_vals_d [])
         = HybridConditional_error notebook_hybrid_d (notebook_vals_d [])
       ∧ ∀ other, HybridConditional_restrict r other = Return r.
Proof.
  destruct (restrict_keeps_values notebook_hybrid_d [(D 1, 0)] (notebook_vals_d [])
              ([] : list (Key * R)))
    as (r & Hr & Hin & He & _ & _ & _ & _ & Hagain).
  - right. eexists. reflexivity.
  - exists r. repeat split; assumption.
Defined.
(** ** Chebyshev2::matrix *)

Section Chebyshev2Facts.
Context {Scalar Column : Type}.
Context (Points : nat → Scalar → Scalar → list Scalar).

Lemma matrix_loop_writes (f : Scalar → Column) (points : list Scalar) (N fuel j : nat)
    (Xmat : list (option Column)) :
  N ≤ length points →
  length Xmat = N →
  j + fuel = N →
  matrix_loop f points N fuel j Xmat
  = Return (take j Xmat ++ ((λ p, Some (f p)) <$> take fuel (drop j points))).
Proof.
  intros Hpts. revert j Xmat. induction fuel as [|fuel IH]; intros j Xmat HX Hsum.
  - simpl. rewrite app_nil_r, take_ge by lia. reflexivity.
  - cbn [matrix_loop]. rewrite decide_True by lia.
    destruct (lookup_lt_is_Some_2 points j ltac:(lia)) as [p Hp]. rewrite Hp.
    rewrite IH by (rewrite ?length_insert; lia).
    rewrite (drop_S _ _ _ Hp). cbn [take fmap list_fmap].
    rewrite (take_S_r _ _ (Some (f p))) by (apply list_lookup_insert_eq; lia).
    rewrite take_insert_ge by lia. rewrite <- app_assoc. reflexivity.
Qed.

Lemma matrix_loop_overruns (f : Scalar → Column) (points : list Scalar) (N fuel j : nat)
    (Xmat : list (option Column)) :
  length points < N →
  j ≤ length points →
  j + fuel = N →
  matrix_loop f points N fuel j Xmat = Undefined.
Proof.
  intros Hpts. revert j Xmat. induction fuel as [|fuel IH]; intros j Xmat Hj Hsum; [lia|].
  cbn [matrix_loop]. rewrite decide_True by lia.
  destruct (points !! j) as [p|] eqn:Hp; [|reflexivity].
  apply IH; [|lia]. apply lookup_lt_Some in Hp. lia.
Qed.

(** X11: when [Points(N, a, b)] has at least [N] entries, [matrix] returns
    [N] columns, all written, the column at [j] being [f] at the point at
    [j]; with [N = 0] that is the matrix without columns.  When [Points]
    returns fewer than [N] entries, the loop reads past their end. *)
Theorem Chebyshev2_matrix_samples (f : Scalar → Column) (N : nat) (a b : Scalar) :
  Chebyshev2_matrix Points f N a b
  = if decide (N ≤ length (Points N a b))
    then Return ((λ p, Some (f p)) <$> take N (Points N a b))
    else Undefined.
Proof.
  unfold Chebyshev2_matrix, Xmat_new. case_decide as Hlen.
  - rewrite matrix_loop_writes by (rewrite ?length_replicate; lia).
    rewrite take_0, drop_0. reflexivity.
  - apply matrix_loop_overruns; lia.
Qed.

End Chebyshev2Facts.

(** ** Key sets and the elimination step *)

Lemma elem_of_concat {A} (x : A) (ls : list (list A)) :
  x ∈ concat ls ↔ ∃ l, x ∈ l ∧ l ∈ ls.
Proof.
  induction ls as [|l ls IH]; simpl.
  - split; [intros H; inversion H | intros (l & _ & H); inversion H].
  - rewrite elem_of_app, IH. split.
    + intros [Hx | (l' & Hx & Hl)]; [exists l | exists l']; split; auto; constructor; auto.
    + intros (l' & Hx & Hl). apply elem_of_cons in Hl as [-> | Hl]; eauto.
Qed.

Lemma elem_of_keyset (k : Key) (l : list Key) : k ∈ keyset l ↔ k ∈ l.
Proof.
  unfold keyset. rewrite merge_sort_Permutation. apply elem_of_remove_dups.
Qed.

Lemma NoDup_keyset (l : list Key) : NoDup (keyset l).
Proof.
  unfold keyset. rewrite merge_sort_Permutation. apply NoDup_remove_dups.
Qed.

Lemma Eliminate_conditional (factors : list Factor) (frontalKeys : list Key) :
  (Eliminate factors frontalKeys).1
  = {| frontals := frontalKeys; parents := (Eliminate factors frontalKeys).2 |}.
Proof. reflexivity. Qed.

Lemma elem_of_Eliminate_separator (factors : list Factor) (frontalKeys : list Key) (k : Key) :
  k ∈ (Eliminate factors frontalKeys).2
  ↔ (∃ f, f ∈ factors ∧ k ∈ f) ∧ k ∉ frontalKeys.
Proof.
  unfold Eliminate; simpl.
  rewrite list_elem_of_filter, elem_of_keyset, elem_of_concat.
  split.
  - intros [Hn (f & Hk & Hf)]. eauto.
  - intros [(f & Hf & Hk) Hn]. eauto.
Qed.

(** C3: the elimination step returns a conditional on exactly the given
    frontal keys, whose parents are the keys of the returned factor; that
    factor has no frontal key, and its keys are the non-frontal keys of the
    factors eliminated, each once. *)
Theorem Eliminate_contract (factors : list Factor) (frontalKeys : list Key) :
  frontals (Eliminate factors frontalKeys).1 = frontalKeys
  ∧ parents (Eliminate factors frontalKeys).1 = (Eliminate factors frontalKeys).2
  ∧ Forall (λ k, k ∉ frontalKeys) (Eliminate factors frontalKeys).2
  ∧ Forall (λ k, ∃ f, f ∈ factors ∧ k ∈ f) (Eliminate factors frontalKeys).2
  ∧ Forall (Forall (λ k, k ∈ frontalKeys ∨ k ∈ (Eliminate factors frontalKeys).2)) factors
  ∧ NoDup (Eliminate factors frontalKeys).2.
Proof.
  split; [reflexivity|]. split; [reflexivity|].
  split; [|split; [|split]].
  - apply Forall_forall. intros k Hk.
    apply elem_of_Eliminate_separator in Hk. tauto.
  - apply Forall_forall. intros k Hk.
    apply elem_of_Eliminate_separator in Hk. tauto.
  - apply Forall_forall. intros f Hf. apply Forall_forall. intros k Hk.
    destruct (decide (k ∈ frontalKeys)) as [Hin | Hnin]; [left; exact Hin|].
    right. apply elem_of_Eliminate_separator. eauto.
  - unfold Eliminate; simpl. apply NoDup_filter, NoDup_keyset.
Qed.

(** ** Induction on the trees *)

Lemma Cluster_Forall_ind (P : Cluster → Prop) :
  (∀ fr fs cs, Forall P cs → P (CNode fr fs cs)) → ∀ c, P c.
Proof.
  intros Hnode. fix IH 1. intros [fr fs cs]. apply Hnode.
  induction cs as [|c cs IHcs]; constructor; [apply IH | exact IHcs].
Qed.

Lemma Clique_Forall_ind (P : Clique → Prop) :
  (∀ cond cs, Forall P cs → P (MkClique cond cs)) → ∀ c, P c.
Proof.
  intros Hnode. fix IH 1. intros [cond cs]. apply Hnode.
  induction cs as [|c cs IHcs]; constructor; [apply IH | exact IHcs].
Qed.

(** ** The running-intersection property *)

Lemma eliminateCluster_separator (graph : FactorGraph) (c : Cluster) :
  parents (conditional (eliminateCluster graph c).1) = (eliminateCluster graph c).2.
Proof. destruct c as [fr fs cs]. reflexivity. Qed.

Lemma eliminateCluster_frontals (graph : FactorGraph) (c : Cluster) :
  frontals (conditional (eliminateCluster graph c).1) = orderedFrontalKeys c.
Proof. destruct c as [fr fs cs]. reflexivity. Qed.

Lemma eliminateCluster_RunningIntersection (graph : FactorGraph) (c : Cluster) :
  RunningIntersection (eliminateCluster graph c).1.
Proof.
  induction c as [fr fs cs IH] using Cluster_Forall_ind.
  simpl. constructor.
  - apply Forall_fmap, Forall_fmap, Forall_forall. intros ch Hch. simpl.
    rewrite eliminateCluster_separator. intros k Hk.
    destruct (decide (k ∈ fr)) as [Hfr | Hfr]; apply elem_of_app; [left; exact Hfr|].
    right. apply elem_of_Eliminate_separator. split; [|exact Hfr].
    exists (eliminateCluster graph ch).2. split; [|exact Hk].
    apply elem_of_app. right.
    apply list_elem_of_fmap. exists (eliminateCluster graph ch). split; [reflexivity|].
    apply list_elem_of_fmap. eauto.
  - apply Forall_fmap, Forall_fmap. exact IH.
Qed.

Lemma RunningIntersection_cliques (c p : Clique) :
  RunningIntersection c → p ∈ cliques c → RunningIntersection p.
Proof.
  revert p. induction c as [cond cs IH] using Clique_Forall_ind.
  intros p Hc Hp. simpl in Hp. apply elem_of_cons in Hp as [-> | Hp]; [exact Hc|].
  inversion Hc as [cond' cs' _ Hcs]; subst.
  apply elem_of_concat in Hp as (l & Hp & Hl).
  apply list_elem_of_fmap in Hl as (ch & -> & Hch).
  rewrite Forall_forall in IH, Hcs. eauto.
Qed.

(** The condition of the merge rule of section 4.6 holds for every child of
    an elimination-tree node: the parent receives the child's separator
    factor. *)
Lemma cluster_of_child_separator (absorb : list Key → list Key → list Key → bool)
    (graph : FactorGraph) (v : Key) (fs : list nat) (cs : list ETree) (child : ETree) :
  child ∈ cs →
  (cluster_of absorb graph child).2 ⊆ [v] ++ (cluster_of absorb graph (ENode v fs cs)).2.
Proof.
  intros Hc k Hk. destruct (decide (k = v)) as [-> | Hne]; [constructor|].
  apply elem_of_app. right. cbn [cluster_of snd].
  apply elem_of_Eliminate_separator. split.
  - exists (cluster_of absorb graph child).2. split; [|exact Hk].
    apply elem_of_app. right.
    apply list_elem_of_fmap. exists (cluster_of absorb graph child). split; [reflexivity|].
    apply list_elem_of_fmap. eauto.
  - intros Hin. apply list_elem_of_singleton in Hin. contradiction.
Qed.

(** C1: in the Bayes tree that multifrontal elimination builds from any
    factor graph and ordering, under any merge rule, the separator of a
    clique with a parent lies within the parent's frontal and separator
    keys. *)
Theorem running_intersection (absorb : list Key → list Key → list Key → bool)
    (graph : FactorGraph) (ordering : Ordering) (parent clique : Clique) :
  parent ∈ BayesTree_cliques (eliminateMultifrontal_with absorb graph ordering) →
  clique ∈ children parent →
  ∀ k, k ∈ parents (conditional clique) →
       k ∈ frontals (conditional parent) ∨ k ∈ parents (conditional parent).
Proof.
  intros Hp Hc k Hk.
  apply elem_of_concat in Hp as (l & Hp & Hl).
  apply list_elem_of_fmap in Hl as (root & -> & Hroot).
  apply list_elem_of_fmap in Hroot as (c & -> & _).
  pose proof (RunningIntersection_cliques _ _
                (eliminateCluster_RunningIntersection graph c) Hp) as Hri.
  inversion Hri as [cond cs Hsep _]; subst. simpl in *.
  rewrite Forall_forall in Hsep. apply elem_of_app. exact (Hsep _ Hc _ Hk).
Qed.

(** The notebook's Bayes tree has one parent-child pair, with separator
    [x1], a frontal key of the root. *)
Lemma running_intersection_notebook :
  notebook_root
    ∈ BayesTree_cliques (eliminateMultifrontal_with sameSeparator notebook_graph
                           notebook_colamd)
  ∧ notebook_child ∈ children notebook_root
  ∧ X 1 ∈ parents (conditional notebook_child)
  ∧ (X 1 ∈ frontals (conditional notebook_root)
     ∨ X 1 ∈ parents (conditional notebook_root)).
Proof.
  assert (Hroot : notebook_root
            ∈ BayesTree_cliques (eliminateMultifrontal_with sameSeparator notebook_graph
                                   notebook_colamd))
    by (vm_compute; constructor).
  assert (Hchild : notebook_child ∈ children notebook_root) by (simpl; constructor).
  assert (Hk : X 1 ∈ parents (conditional notebook_child)) by (simpl; constructor).
  repeat split; try assumption.
  exact (running_intersection sameSeparator notebook_graph notebook_colamd
           notebook_root notebook_child Hroot Hchild (X 1) Hk).
Defined.

(** ** The graph object *)

Lemma extends_refl s : extends s s.
Proof. split; [reflexivity|]. exists []. symmetry. apply app_nil_r. Qed.

Lemma extends_trans s1 s2 s3 : extends s1 s2 → extends s2 s3 → extends s1 s3.
Proof.
  intros [Hf1 [n1 Ho1]] [Hf2 [n2 Ho2]]. split; [congruence|].
  exists (n1 ++ n2). rewrite Ho2, Ho1. symmetry. apply app_assoc.
Qed.

Lemma extends_lookup s s' h f :
  extends s s' → objects s !! h = Some f → objects s' !! h = Some f.
Proof. intros [_ [new ->]] Hh. apply lookup_app_l_Some. exact Hh. Qed.

Create HintDb frame.

Lemma frames_ret {A} (a : A) : frames (st_ret a).
Proof. intros s. apply extends_refl. Qed.

Lemma frames_bind {A B} (m : St A) (k : A → St B) :
  frames m → (∀ a, frames (k a)) → frames (st_bind m k).
Proof.
  intros Hm Hk s. unfold st_bind. specialize (Hm s).
  destruct (m s) as [a s'] eqn:Hms. simpl in Hm.
  eapply extends_trans; [exact Hm | apply Hk].
Qed.

Lemma frames_handleAt pos : frames (handleAt pos).
Proof. intros s. apply extends_refl. Qed.

Lemma frames_deref h : frames (deref h).
Proof. intros s. apply extends_refl. Qed.

Lemma frames_make_shared f : frames (make_shared f).
Proof. intros s. split; [reflexivity|]. exists [f]. reflexivity. Qed.

Lemma frames_mapM {A B} (f : A → St B) (l : list A) :
  Forall (λ a, frames (f a)) l → frames (st_mapM f l).
Proof.
  induction 1 as [|a l Ha _ IH]; simpl; [apply frames_ret|].
  apply frames_bind; [exact Ha|]. intros b.
  apply frames_bind; [exact IH|]. intros bs. apply frames_ret.
Qed.

#[export] Hint Resolve frames_ret frames_bind frames_handleAt frames_deref
  frames_make_shared : frame.

Lemma frames_readFactor pos : frames (readFactor pos).
Proof. unfold readFactor. apply frames_bind; [auto with frame|]. intros [h|]; auto with frame. Qed.

Lemma frames_readFactors ps : frames (readFactors ps).
Proof.
  unfold readFactors. apply frames_bind; [|auto with frame].
  apply frames_mapM, Forall_forall. intros pos _. apply frames_readFactor.
Qed.

Lemma frames_eliminateClusterSt c : frames (eliminateClusterSt c).
Proof.
  induction c as [fr fs cs IH] using Cluster_Forall_ind. simpl.
  apply frames_bind; [apply frames_mapM, IH|]. intros rs.
  apply frames_bind; [apply frames_readFactors|]. intros own.
  apply frames_bind; [apply frames_mapM, Forall_forall; intros; apply frames_deref|].
  intros seps. destruct (Eliminate (own ++ omap (λ f, f) seps) fr) as [cond sep].
  apply frames_bind; auto with frame.
Qed.

Lemma frames_eliminateMultifrontalSt ordering : frames (eliminateMultifrontalSt ordering).
Proof.
  intros s. unfold eliminateMultifrontalSt.
  apply (frames_bind _ _); [|auto with frame].
  apply frames_mapM, Forall_forall. intros c _. apply frames_eliminateClusterSt.
Qed.

(** The stateful elimination computes what the pure one computes on the
    graph as seen through the handles. *)
Lemma readFactor_view s0 s pos :
  wellFormed s0 → extends s0 s → readFactor pos s = (factorAt (view s0) pos, s).
Proof.
  intros Hwf [Hf [new Ho]]. unfold readFactor, st_bind, handleAt, factorAt, view.
  unfold FactorGraph. rewrite Hf, list_lookup_fmap.
  destruct (factors_ s0 !! pos) as [[h|]|] eqn:Hpos; simpl; try reflexivity.
  unfold deref. rewrite Ho, lookup_app_l by (eapply Hwf, Hpos). reflexivity.
Qed.

Lemma mapM_readFactor_view s0 s ps :
  wellFormed s0 → extends s0 s →
  st_mapM readFactor ps s = (factorAt (view s0) <$> ps, s).
Proof.
  intros Hwf Hext. induction ps as [|p ps IH]; [reflexivity|].
  simpl. unfold st_bind at 1. rewrite (readFactor_view s0) by assumption.
  unfold st_bind at 1. rewrite IH. reflexivity.
Qed.

Lemma omap_id_map {A B} (f : A → option B) (l : list A) :
  omap (λ x, x) (f <$> l) = omap f l.
Proof.
  induction l as [|a l IH]; [reflexivity|].
  cbn [fmap list_fmap omap list_omap]. rewrite IH. reflexivity.
Qed.

Lemma readFactors_view s0 s ps :
  wellFormed s0 → extends s0 s → readFactors ps s = (factorsAt (view s0) ps, s).
Proof.
  intros Hwf Hext. unfold readFactors, st_bind.
  rewrite (mapM_readFactor_view s0) by assumption.
  unfold st_ret, factorsAt. rewrite omap_id_map. reflexivity.
Qed.

Lemma mapM_deref s hs fs :
  Forall2 (λ h f, objects s !! h = Some f) hs fs →
  st_mapM deref hs s = (Some <$> fs, s).
Proof.
  induction 1 as [|h f hs fs Hh _ IH]; [reflexivity|].
  simpl. unfold st_bind at 1. unfold deref at 1. rewrite Hh.
  unfold st_bind at 1. rewrite IH. reflexivity.
Qed.

Lemma omap_id_Some {A} (l : list A) : omap (λ x, x) (Some <$> l) = l.
Proof.
  induction l as [|a l IH]; [reflexivity|].
  cbn [fmap list_fmap omap list_omap]. rewrite IH. reflexivity.
Qed.

Lemma mapM_eliminateClusterSt_refines s0 cs :
  Forall (refinesAt s0) cs →
  ∀ s, extends s0 s →
    ∃ rs s', st_mapM eliminateClusterSt cs s = (rs, s')
             ∧ extends s s'
             ∧ rs.*1 = (map (eliminateCluster (view s0)) cs).*1
             ∧ Forall2 (λ h f, objects s' !! h = Some f) rs.*2
                       (map (eliminateCluster (view s0)) cs).*2.
Proof.
  induction 1 as [|c cs Hc _ IH]; intros s Hext.
  - exists [], s. repeat split; [apply extends_refl|constructor].
  - destruct (Hc s Hext) as (h & s1 & Hrun & Hext1 & Hh).
    destruct (IH s1 (extends_trans _ _ _ Hext Hext1)) as (rs & s2 & Hrun2 & Hext2 & Hfst & Hsnd).
    exists (((eliminateCluster (view s0) c).1, h) :: rs), s2.
    split; [|split; [|split]].
    + simpl. unfold st_bind at 1. rewrite Hrun. unfold st_bind at 1. rewrite Hrun2. reflexivity.
    + eapply extends_trans; eassumption.
    + simpl. f_equal. exact Hfst.
    + simpl. constructor; [|exact Hsnd]. eapply extends_lookup; eassumption.
Qed.

Lemma eliminateClusterSt_refines s0 c : wellFormed s0 → refinesAt s0 c.
Proof.
  intros Hwf. induction c as [fr fs cs IH] using Cluster_Forall_ind.
  intros s Hext.
  destruct (mapM_eliminateClusterSt_refines s0 cs IH s Hext) as (rs & s1 & Hrun & Hext1 & Hfst & Hsnd).
  assert (Hext01 : extends s0 s1) by (eapply extends_trans; eassumption).
  cbn [eliminateClusterSt eliminateCluster].
  unfold st_bind at 1. rewrite Hrun.
  unfold st_bind at 1. rewrite (readFactors_view s0) by assumption.
  unfold st_bind at 1. rewrite (mapM_deref _ _ _ Hsnd).
  rewrite omap_id_Some.
  destruct (Eliminate (factorsAt (view s0) fs ++ (map (eliminateCluster (view s0)) cs).*2) fr)
    as [cond sep] eqn:HE.
  unfold st_bind, make_shared, st_ret. simpl.
  eexists _, _. split; [rewrite Hfst; reflexivity|]. split.
  - eapply extends_trans; [exact Hext1|]. split; [reflexivity|]. exists [sep]. reflexivity.
  - simpl. rewrite lookup_app_r, Nat.sub_diag by lia. reflexivity.
Qed.

Lemma eliminateMultifrontalSt_refines (s : Store) (ordering : Ordering) :
  wellFormed s →
  (eliminateMultifrontalSt ordering s).1 = eliminateMultifrontal (view s) ordering.
Proof.
  intros Hwf. unfold eliminateMultifrontalSt, eliminateMultifrontal, eliminateMultifrontal_with.
  fold (JunctionTree (view s) ordering).
  destruct (mapM_eliminateClusterSt_refines s (JunctionTree (view s) ordering)) with (s := s)
    as (rs & s' & Hrun & _ & Hfst & _).
  - apply Forall_forall. intros c _. apply eliminateClusterSt_refines, Hwf.
  - apply extends_refl.
  - unfold st_bind. rewrite Hrun. simpl. rewrite Hfst.
    rewrite <- list_fmap_compose. reflexivity.
Qed.

Lemma ETree_Forall_ind (P : ETree → Prop) :
  (∀ v fs cs, Forall P cs → P (ENode v fs cs)) → ∀ t, P t.
Proof.
  intros Hnode. fix IH 1. intros [v fs cs]. apply Hnode.
  induction cs as [|c cs IHcs]; constructor; [apply IH | exact IHcs].
Qed.

Lemma eliminateNode_singleton (graph : FactorGraph) (t : ETree) :
  eliminateNode graph t
  = (postorder (eliminateCluster graph (singletonCluster t)).1,
     (eliminateCluster graph (singletonCluster t)).2).
Proof.
  induction t as [v fs cs IH] using ETree_Forall_ind.
  cbn [eliminateNode singletonCluster eliminateCluster].
  assert (Hcs : (map (eliminateNode graph) cs).*2
                = (map (eliminateCluster graph) (map singletonCluster cs)).*2
                ∧ concat (map (eliminateNode graph) cs).*1
                  = concat (map postorder
                              (map (eliminateCluster graph) (map singletonCluster cs)).*1)).
  { induction IH as [|c cs Hc _ [IH2 IH1]]; [split; reflexivity|].
    cbn [map]. rewrite !fmap_cons, Hc. cbn [fst snd concat].
    rewrite IH2, IH1. split; reflexivity. }
  destruct Hcs as [-> ->].
  destruct (Eliminate _ [v]) as [cond sep]. reflexivity.
Qed.

Lemma eliminateSequentialSt_refines (s : Store) (ordering : Ordering) :
  wellFormed s →
  (eliminateSequentialSt ordering s).1 = eliminateSequential (view s) ordering.
Proof.
  intros Hwf. unfold eliminateSequentialSt, eliminateSequential.
  destruct (mapM_eliminateClusterSt_refines s
              (singletonCluster <$> EliminationTree (view s) ordering)) with (s := s)
    as (rs & s' & Hrun & _ & Hfst & _).
  - apply Forall_forall. intros c _. apply eliminateClusterSt_refines, Hwf.
  - apply extends_refl.
  - unfold st_bind. rewrite Hrun. simpl. rewrite Hfst. f_equal. clear Hrun Hfst.
    induction (EliminationTree (view s) ordering) as [|t ts IHts]; [reflexivity|].
    rewrite !fmap_cons. cbn [map]. rewrite ?fmap_cons, eliminateNode_singleton.
    cbn [fst]. f_equal. exact IHts.
Qed.

Lemma frames_eliminateSequentialSt (ordering : Ordering) :
  frames (eliminateSequentialSt ordering).
Proof.
  intros s. unfold eliminateSequentialSt.
  apply (frames_bind _ _); [|auto with frame].
  apply frames_mapM, Forall_forall. intros c _. apply frames_eliminateClusterSt.
Qed.

Lemma invoke_const (c : GraphCall) : isMutator c = true ∨ frames (invoke c).
Proof.
  destruct c; simpl; auto; right.
  - intros s. apply extends_refl.
  - intros s. apply extends_refl.
  - apply frames_bind; [apply frames_eliminateSequentialSt | auto with frame].
  - apply frames_bind; [apply frames_eliminateMultifrontalSt | auto with frame].
Qed.

(** A sequence of calls with no append and no erase leaves the graph as it
    is. *)
Lemma run_const (calls : list GraphCall) :
  Forall (λ c, isMutator c = false) calls → frames (run calls).
Proof.
  intros Hcalls. apply frames_mapM.
  eapply Forall_impl; [exact Hcalls|].
  intros c Hc. destruct (invoke_const c) as [Hm | Hf]; [congruence | exact Hf].
Qed.

(** C5: sequential and multifrontal elimination leave the graph's handles
    as they are, position by position, and the factors behind them in
    place; they only allocate new factors.  So does every call other than
    an append or an erase, while an append changes the graph. *)
Theorem elimination_leaves_graph (s : Store) (ordering : Ordering) (c : GraphCall)
    (f : Factor) :
  extends s (eliminateSequentialSt ordering s).2
  ∧ extends s (eliminateMultifrontalSt ordering s).2
  ∧ (isMutator c = true ∨ extends s (invoke c s).2)
  ∧ factors_ (invoke (call_add f) s).2 ≠ factors_ s
  ∧ (factors_ (invoke (call_erase 0) s).2 = factors_ s → factors_ s = []).
Proof.
  split; [apply frames_eliminateSequentialSt|].
  split; [apply frames_eliminateMultifrontalSt|].
  split; [destruct (invoke_const c) as [Hm | Hc]; [left; exact Hm | right; apply Hc]|].
  split.
  - simpl. intros Heq. apply (f_equal length) in Heq.
    rewrite length_app in Heq. simpl in Heq. lia.
  - simpl. destruct (factors_ s) as [|h hs]; [reflexivity|].
    simpl. intros Heq. apply (f_equal length) in Heq. simpl in Heq. lia.
Qed.

(** On the store of the notebook's graph, multifrontal elimination returns
    the Bayes tree that elimination of the graph returns, and sequential
    elimination the Bayes net; the graph's handles are as before. *)
Example notebook_store_elimination :
  view notebook_store = notebook_graph
  ∧ eliminateMultifrontalSt notebook_colamd notebook_store
    = (eliminateMultifrontal notebook_graph notebook_colamd,
       {| factors_ := factors_ notebook_store;
          objects := objects notebook_store
                     ++ [[]] |})
  ∧ (eliminateSequentialSt notebook_ordering notebook_store).1
    = eliminateSequential notebook_graph notebook_ordering
  ∧ factors_ (eliminateSequentialSt notebook_ordering notebook_store).2
    = factors_ notebook_store.
Proof. vm_compute. repeat split. Qed.

(** ** The fill-in-minimizing ordering *)

Lemma better_byKey (G : EliminationGraph) (v w : Key) :
  better byKey G v w = true
  ↔ fillIn G v < fillIn G w ∨ (fillIn G v = fillIn G w ∧ (v ≤ w)%N).
Proof.
  unfold better, byKey.
  rewrite orb_true_iff, andb_true_iff, !bool_decide_eq_true, N.leb_le. reflexivity.
Qed.

Lemma better_byKey_total (G : EliminationGraph) (v w : Key) :
  better byKey G v w = true ∨ better byKey G w v = true.
Proof. rewrite !better_byKey. lia. Qed.

Lemma better_byKey_trans (G : EliminationGraph) (u v w : Key) :
  better byKey G u v = true → better byKey G v w = true → better byKey G u w = true.
Proof. rewrite !better_byKey. lia. Qed.

Lemma selects_byKey_unique (G : EliminationGraph) (remaining : list Key) (v w : Key) :
  selects byKey G remaining v → selects byKey G remaining w → v = w.
Proof.
  intros [Hv Hbv] [Hw Hbw].
  specialize (Hbv w Hw). specialize (Hbw v Hv).
  rewrite better_byKey in Hbv, Hbw. lia.
Qed.

Lemma Greedy_byKey_unique (G : EliminationGraph) (remaining : list Key) (o1 o2 : Ordering) :
  Greedy byKey G remaining o1 → Greedy byKey G remaining o2 → o1 = o2.
Proof.
  intros H1. revert o2.
  induction H1 as [G | G remaining v o1 Hsel _ IH]; intros o2 H2.
  - inversion H2 as [| G' rem' w o' [Hw _] _]; subst; [reflexivity|].
    inversion Hw.
  - inversion H2 as [| G' rem' w o' Hsel' Hrest]; subst.
    + destruct Hsel as [Hv _]. inversion Hv.
    + pose proof (selects_byKey_unique _ _ _ _ Hsel Hsel') as <-.
      f_equal. apply IH, Hrest.
Qed.

Lemma argmin_nil {A} (le : A → A → bool) (l : list A) : argmin le l = None → l = [].
Proof.
  destruct l as [|x l]; [reflexivity|]. simpl.
  destruct (argmin le l) as [b|]; [destruct (le x b)|]; discriminate.
Qed.

Lemma argmin_least {A} (le : A → A → bool) (l : list A) (m : A) :
  (∀ x y, le x y = true ∨ le y x = true) →
  (∀ x y z, le x y = true → le y z = true → le x z = true) →
  argmin le l = Some m →
  m ∈ l ∧ ∀ x, x ∈ l → le m x = true.
Proof.
  intros Htotal Htrans. revert m.
  induction l as [|x l IH]; intros m Hm; [discriminate Hm|].
  assert (Hrefl : ∀ y, le y y = true) by (intros y; destruct (Htotal y y); assumption).
  simpl in Hm. destruct (argmin le l) as [b|] eqn:Hb.
  - destruct (IH b eq_refl) as [Hbl Hbmin].
    destruct (le x b) eqn:Hxb; injection Hm as <-.
    + split; [constructor|]. intros y Hy.
      apply elem_of_cons in Hy as [-> | Hy]; [apply Hrefl|].
      eapply Htrans; [exact Hxb | apply Hbmin, Hy].
    + split; [constructor; exact Hbl|]. intros y Hy.
      apply elem_of_cons in Hy as [-> | Hy]; [|apply Hbmin, Hy].
      destruct (Htotal x b) as [Hc | Hc]; [congruence | exact Hc].
  - injection Hm as <-. apply argmin_nil in Hb as ->.
    split; [constructor|]. intros y Hy.
    apply elem_of_cons in Hy as [-> | Hy]; [apply Hrefl | inversion Hy].
Qed.

Lemma fillInMinimizing_Greedy (n : nat) (G : EliminationGraph) (remaining : list Key) :
  length remaining ≤ n → Greedy byKey G remaining (fillInMinimizing n G remaining).
Proof.
  revert G remaining. induction n as [|n IH]; intros G remaining Hlen.
  - destruct remaining; [constructor | simpl in Hlen; lia].
  - simpl. destruct (argmin (better byKey G) remaining) as [v|] eqn:Hv.
    + apply argmin_least in Hv as [Hin Hmin];
        [|apply better_byKey_total|apply better_byKey_trans].
      constructor; [split; assumption|]. apply IH.
      assert (length (filter (λ k, k ≠ v) remaining) < length remaining); [|lia].
      eapply length_filter_lt; [exact Hin | intros Hne; apply Hne; reflexivity].
    + apply argmin_nil in Hv as ->. constructor.
Qed.

(** [DefaultOrderingFunc] does not read its graph argument: with an index it
    returns the fill-in-minimizing ordering of that index, whatever the graph;
    without one it dereferences an empty optional. *)
Lemma DefaultOrderingFunc_reads_index (g1 g2 : FactorGraph)
    (variableIndex : option VariableIndex) :
  DefaultOrderingFunc g1 variableIndex = DefaultOrderingFunc g2 variableIndex
  ∧ match variableIndex with
    | Some vi =>
        ∃ o, DefaultOrderingFunc g1 variableIndex = Return o
             ∧ Greedy byKey (eliminationGraph vi) vi.*1 o
    | None => DefaultOrderingFunc g1 variableIndex = Undefined
    end.
Proof.
  split; [reflexivity|]. destruct variableIndex as [vi|]; [|reflexivity].
  exists (Colamd vi). split; [reflexivity|].
  apply fillInMinimizing_Greedy. rewrite length_fmap. lia.
Qed.

Lemma isGreedy_Greedy (tie : Key → Key → bool) (G : EliminationGraph)
    (remaining : list Key) (o : Ordering) :
  isGreedy tie G remaining o = true → Greedy tie G remaining o.
Proof.
  revert G remaining. induction o as [|v o IH]; intros G remaining; simpl.
  - rewrite bool_decide_eq_true. intros ->. constructor.
  - rewrite !andb_true_iff, bool_decide_eq_true.
    intros [[Hin Hall] Hrest]. constructor; [|apply IH, Hrest].
    split; [exact Hin|]. intros w Hw.
    rewrite forallb_forall in Hall. apply Hall, list_elem_of_In, Hw.
Qed.

(** ** The graph of the notebooks, eliminated *)

Lemma allGreedy_done (n : nat) (G : EliminationGraph) : allGreedy n G [] = [[]].
Proof. destruct n; reflexivity. Qed.

Lemma Greedy_allGreedy (G : EliminationGraph) (remaining : list Key) (o : Ordering) :
  Greedy anyTie G remaining o →
  ∀ n, length remaining ≤ n → o ∈ allGreedy n G remaining.
Proof.
  induction 1 as [G | G remaining v o [Hin Hbest] _ IH]; intros n Hlen.
  - rewrite allGreedy_done. constructor.
  - destruct n as [|n].
    { destruct remaining; [inversion Hin | simpl in Hlen; lia]. }
    assert (Hshrink : length (filter (λ k, k ≠ v) remaining) ≤ n).
    { assert (length (filter (λ k, k ≠ v) remaining) < length remaining); [|lia].
      eapply length_filter_lt; [exact Hin | intros Hne; apply Hne; reflexivity]. }
    destruct remaining as [|k remaining]; [inversion Hin|].
    cbn [allGreedy]. apply list_elem_of_bind. exists v. split.
    + apply list_elem_of_fmap. exists o. split; [reflexivity | apply IH, Hshrink].
    + apply list_elem_of_filter. split; [|exact Hin].
      apply Is_true_true, forallb_forall. intros w Hw.
      apply Hbest, list_elem_of_In, Hw.
Qed.

Lemma GreedyOrdering_enumerated (graph : FactorGraph) (o : Ordering) :
  GreedyOrdering graph o → o ∈ greedyOrderings graph.
Proof.
  intros Hg. apply Greedy_allGreedy; [exact Hg|]. rewrite length_fmap. lia.
Qed.

(** [JunctionTree.ipynb] records a Bayes tree of two cliques, the root
    [p(x1 l2 x2)] with the child [p(l1 x0 | x1)].  The elimination order
    [l1 x0 x1 l2 x2] behind it is one a greedy fill-in-minimizing heuristic
    can return; with ties broken by key value the heuristic returns
    [l1 l2 x0 x1 x2]. *)
Example notebook_orderings :
  isGreedy anyTie (eliminationGraph (VariableIndex_build notebook_graph))
           (VariableIndex_build notebook_graph).*1 notebook_colamd = true
  ∧ Colamd (VariableIndex_build notebook_graph) = [L 1; L 2; X 0; X 1; X 2].
Proof. split; vm_compute; reflexivity. Qed.

(** The condition of the merge rule of section 4.6 holds of every child, so
    under that rule every child is absorbed: a cluster has no child cluster,
    and its frontal keys include the key of its node. *)
Lemma separatorWithin_absorbs (graph : FactorGraph) (t : ETree) :
  clusterChildren (cluster_of separatorWithin graph t).1 = []
  ∧ match t with
    | ENode v _ _ => v ∈ orderedFrontalKeys (cluster_of separatorWithin graph t).1
    end.
Proof.
  induction t as [v fs cs IH] using ETree_Forall_ind.
  cbn [cluster_of fst].
  set (sep := (Eliminate _ [v]).2).
  assert (Hsep : ∀ c, c ∈ cs → (cluster_of separatorWithin graph c).2 ⊆ [v] ++ sep).
  { intros c Hc. exact (cluster_of_child_separator separatorWithin graph v fs cs c Hc). }
  clearbody sep.
  assert (Hfold : ∀ (l : list ETree) acc,
            Forall (λ c, c ∈ cs) l →
            clusterChildren acc = [] → v ∈ orderedFrontalKeys acc →
            let r := foldl (λ acc r, if separatorWithin r.2 (orderedFrontalKeys acc) sep
                                     then Cluster_merge acc r.1 else Cluster_addChild acc r.1)
                           acc (map (cluster_of separatorWithin graph) l) in
            clusterChildren r = [] ∧ v ∈ orderedFrontalKeys r).
  { induction l as [|c l IHl]; intros acc Hl Hkids Hv; [split; assumption|].
    apply Forall_cons in Hl as [Hc Hl]. cbn [map foldl].
    assert (Habs : separatorWithin (cluster_of separatorWithin graph c).2
                                   (orderedFrontalKeys acc) sep = true).
    { apply bool_decide_eq_true. intros k Hk.
      apply (Hsep c Hc) in Hk. apply elem_of_app in Hk as [Hk | Hk].
      - apply list_elem_of_singleton in Hk as ->. apply elem_of_app. left. exact Hv.
      - apply elem_of_app. right. exact Hk. }
    destruct (separatorWithin _ (orderedFrontalKeys acc) sep) eqn:Hrule;
      [|discriminate Habs].
    apply IHl; [exact Hl | |].
    - cbn [Cluster_merge clusterChildren]. rewrite Hkids.
      rewrite Forall_forall in IH. apply (IH c Hc).
    - cbn [Cluster_merge orderedFrontalKeys]. apply elem_of_app. right. exact Hv. }
  apply Hfold; [apply Forall_forall; auto | reflexivity | simpl; constructor].
Qed.

(** Hence multifrontal elimination under the rule of section 4.6 returns one
    clique for each root of the elimination tree, whatever the graph and the
    ordering. *)
Lemma separatorWithin_one_clique_per_root (graph : FactorGraph) (ordering : Ordering) :
  nrCliques (eliminateMultifrontal graph ordering)
  = length (EliminationTree graph ordering).
Proof.
  unfold nrCliques, BayesTree_cliques, eliminateMultifrontal, eliminateMultifrontal_with,
    JunctionTree_with.
  induction (EliminationTree graph ordering) as [|t ts IHts]; [reflexivity|].
  cbn [map concat]. rewrite length_app, IHts.
  destruct (separatorWithin_absorbs graph t) as [Hkids _].
  destruct (cluster_of separatorWithin graph t).1 as [fr fs kids].
  cbn [clusterChildren] in Hkids. subst kids. cbn [eliminateCluster map].
  destruct (Eliminate _ fr) as [cond s']. reflexivity.
Qed.

(** Under the merge rule as section 4.6 states it every child is absorbed:
    on the notebook's graph and on the landmark observations alone, every
    greedy ordering ends in one clique. *)
Example section_4_6_rule_one_clique :
  forallb (λ o, bool_decide (nrCliques (eliminateMultifrontal notebook_graph o) = 1))
          (greedyOrderings notebook_graph) = true
  ∧ forallb (λ o, bool_decide (nrCliques (eliminateMultifrontal landmarks_only_graph o) = 1))
            (greedyOrderings landmarks_only_graph) = true.
Proof. split; vm_compute; reflexivity. Qed.

(** Under the stricter rule [sameSeparator] the recorded tree comes out on
    the notebook's graph for the recorded order, while the landmark
    observations alone give three cliques under every greedy ordering. *)
Example sameSeparator_recorded_tree :
  eliminateMultifrontal_with sameSeparator notebook_graph notebook_colamd = [notebook_root]
  ∧ forallb (λ o, bool_decide
                    (nrCliques (eliminateMultifrontal_with sameSeparator
                                  landmarks_only_graph o) = 3))
            (greedyOrderings landmarks_only_graph) = true.
Proof. split; vm_compute; reflexivity. Qed.

(** [EliminationTree.ipynb]: the tree the notebook prints for the ordering
    [x0 l1 x1 l2 x2], a chain from the root [x2] down to [x0], each node with
    the factors printed under it. *)
Example notebook_EliminationTree :
  EliminationTree notebook_graph notebook_ordering
  = [ENode (X 2) []
       [ENode (L 2) [6]
          [ENode (X 1) [2; 5]
             [ENode (L 1) [4]
                [ENode (X 0) [0; 1; 3] []]]]]].
Proof. vm_compute. reflexivity. Qed.

(** [EliminationTree.ipynb]: the Bayes net the notebook prints,
    [p(x0 | l1 x1)], [p(l1 | x1)], [p(x1 | l2 x2)], [p(l2 | x2)], [p(x2)]. *)
Example notebook_BayesNet :
  eliminateSequential notebook_graph notebook_ordering
  = [ {| frontals := [X 0]; parents := [L 1; X 1] |};
      {| frontals := [L 1]; parents := [X 1] |};
      {| frontals := [X 1]; parents := [L 2; X 2] |};
      {| frontals := [L 2]; parents := [X 2] |};
      {| frontals := [X 2]; parents := [] |} ].
Proof. vm_compute. reflexivity. Qed.

